(** * Galaxy composition and terrain layering (server/services/map.ts)

    A shallow embedding of [MapService]: [generateStars], [generateTerrain]
    with its seven feature passes, and the two geometry queries.

    Conventions of the embedding.
    - A JavaScript [number] that the program computes with (the quota
      arithmetic, coordinates) is an IEEE-754 binary64 value, Rocq's
      primitive [float]; integers that only count or index are [nat] or
      [Z].  The settings (player limit, percentages, the constant
      [maxNaturalResources]) and the natural resources of a star are whole
      numbers, [Z]; they enter the double arithmetic through [Js.of_Z].
    - The stars of a game are objects held in the array [game.galaxy.stars].
      Every pass filters that array into a fresh array of references,
      shuffles and slices the fresh array, and then writes through the
      references.  A reference is modelled by the position of the star in
      [game.galaxy.stars]; the array itself is never reordered or resized by
      [generateTerrain].
    - The collaborators injected into [MapService] (random service, star
      service, name service, the per-topology map services, the game type
      service) and the [shuffle] utility are not part of this file: they are
      the fields of the class [Collaborators].  [Sample] gives one concrete
      set of them, on which the program can be run. *)

From Stdlib Require Import ZArith Floats Lia.
From stdpp Require Import base option list strings.

Set Default Proof Using "Type".

(** ** JavaScript numbers *)

Module Js.

(** The double nearest to an integer (exact below 2^53). *)
Definition of_Z (z : Z) : float :=
  SF2Prim (binary_normalize prec emax z 0 false).

Definition of_nat (n : nat) : float := of_Z (Z.of_nat n).

(** [Math.floor] of a finite double, as the integer it denotes.  The
    quotas below are products of an array length, a player limit and a
    percentage, far from overflow; on NaN and the infinities, which do
    not arise there, the value is 0. *)
Definition floor (f : float) : Z :=
  match Prim2SF f with
  | S754_finite s m e =>
      let n := if s then Z.neg m else Z.pos m in
      if (0 <=? e)%Z then (n * 2 ^ e)%Z else (n / 2 ^ (- e))%Z
  | _ => 0%Z
  end.

(** [Math.ceil], likewise. *)
Definition ceil (f : float) : Z :=
  match Prim2SF f with
  | S754_finite s m e =>
      let n := if s then Z.neg m else Z.pos m in
      if (0 <=? e)%Z then (n * 2 ^ e)%Z else (- ((- n) / 2 ^ (- e)))%Z
  | _ => 0%Z
  end.

(** [Math.ceil(v * 0.2)] on an integer [v]: the least integer not below
    [v / 5].  Resource values are integers, and on them the double
    product rounds to the same result ([ceil_times_0_2_double] below
    checks it on a range). *)
Definition ceil_times_0_2 (v : Z) : Z := (- ((- v) / 5))%Z.

(** Truthiness of an optional object: [undefined] is falsy. *)
Definition truthy {A} (o : option A) : bool :=
  match o with Some _ => true | None => false end.

(** [a.slice(0, end)] for an integer [end]: a negative [end] counts from
    the back of the array, and the result never exceeds the array. *)
Definition slice0 {A} (a : list A) (e : Z) : list A :=
  if (e <? 0)%Z then take (Z.to_nat (Z.of_nat (length a) + e)) a
  else take (Z.to_nat e) a.

(** Stable insertion of [v] in front of a sorted tail: [v] stood before
    every element of the tail in the array, so it stays in front of the
    first element it does not compare greater than. *)
Fixpoint insert_by {A} (cmp : A → A → float) (v : A) (a : list A) : list A :=
  match a with
  | [] => [v]
  | w :: a' =>
      if (0 <? cmp v w)%float then w :: insert_by cmp v a' else v :: w :: a'
  end.

(** [a.sort(cmp)]: the array after the in-place, stable sort. *)
Definition sort {A} (cmp : A → A → float) (a : list A) : list A :=
  foldr (insert_by cmp) [] a.

End Js.

(** ** Data model *)

Definition ObjectId := nat.

Record NaturalResources := mkNaturalResources {
  economy : Z;
  industry : Z;
  science : Z
}.

(** The type [Location] of types/Location. *)
Record Location := mkLocation { x : float; y : float }.

Record Star := mkStar {
  _id : ObjectId;
  name : option string;          (* [None]: the name is [undefined] *)
  location : Location;
  ownedByPlayerId : option ObjectId;
  naturalResources : NaturalResources;
  homeStar : bool;
  warpGate : bool;
  wormHoleToStarId : option ObjectId;
  isNebula : bool;
  isAsteroidField : bool;
  isBinaryStar : bool;
  isBlackHole : bool;
  isPulsar : bool
}.

(** Field writes [star.f = v]. *)
Definition set_warpGate (v : bool) (s : Star) : Star :=
  mkStar (_id s) (name s) (location s) (ownedByPlayerId s) (naturalResources s)
    (homeStar s) v (wormHoleToStarId s) (isNebula s) (isAsteroidField s)
    (isBinaryStar s) (isBlackHole s) (isPulsar s).
Definition set_wormHoleToStarId (v : option ObjectId) (s : Star) : Star :=
  mkStar (_id s) (name s) (location s) (ownedByPlayerId s) (naturalResources s)
    (homeStar s) (warpGate s) v (isNebula s) (isAsteroidField s)
    (isBinaryStar s) (isBlackHole s) (isPulsar s).
Definition set_isNebula (v : bool) (s : Star) : Star :=
  mkStar (_id s) (name s) (location s) (ownedByPlayerId s) (naturalResources s)
    (homeStar s) (warpGate s) (wormHoleToStarId s) v (isAsteroidField s)
    (isBinaryStar s) (isBlackHole s) (isPulsar s).
Definition set_isAsteroidField (v : bool) (s : Star) : Star :=
  mkStar (_id s) (name s) (location s) (ownedByPlayerId s) (naturalResources s)
    (homeStar s) (warpGate s) (wormHoleToStarId s) (isNebula s) v
    (isBinaryStar s) (isBlackHole s) (isPulsar s).
Definition set_isBinaryStar (v : bool) (s : Star) : Star :=
  mkStar (_id s) (name s) (location s) (ownedByPlayerId s) (naturalResources s)
    (homeStar s) (warpGate s) (wormHoleToStarId s) (isNebula s)
    (isAsteroidField s) v (isBlackHole s) (isPulsar s).
Definition set_isBlackHole (v : bool) (s : Star) : Star :=
  mkStar (_id s) (name s) (location s) (ownedByPlayerId s) (naturalResources s)
    (homeStar s) (warpGate s) (wormHoleToStarId s) (isNebula s)
    (isAsteroidField s) (isBinaryStar s) v (isPulsar s).
Definition set_isPulsar (v : bool) (s : Star) : Star :=
  mkStar (_id s) (name s) (location s) (ownedByPlayerId s) (naturalResources s)
    (homeStar s) (warpGate s) (wormHoleToStarId s) (isNebula s)
    (isAsteroidField s) (isBinaryStar s) (isBlackHole s) v.
Definition set_naturalResources (v : NaturalResources) (s : Star) : Star :=
  mkStar (_id s) (name s) (location s) (ownedByPlayerId s) v
    (homeStar s) (warpGate s) (wormHoleToStarId s) (isNebula s)
    (isAsteroidField s) (isBinaryStar s) (isBlackHole s) (isPulsar s).

Definition set_economy (v : Z) (r : NaturalResources) : NaturalResources :=
  mkNaturalResources v (industry r) (science r).
Definition set_industry (v : Z) (r : NaturalResources) : NaturalResources :=
  mkNaturalResources (economy r) v (science r).
Definition set_science (v : Z) (r : NaturalResources) : NaturalResources :=
  mkNaturalResources (economy r) (industry r) v.

(** A location object as the map services hand it out (the source types
    it [any]).  The satellites of a home location are location objects
    themselves; a field the map service left out is [undefined]: falsy for
    the two flags, [None] elsewhere. *)
#[warnings="-register-all"]
Inductive StarLocation := mkStarLocation {
  loc_x : float;
  loc_y : float;
  loc_homeStar : bool;
  linked : bool;
  linkedLocations : option (list StarLocation);
  resources : option NaturalResources;
  loc_name : option (option string)   (* [None]: never written *)
}.

(** [location.name = v]. *)
Definition set_loc_name (v : option string) (l : StarLocation) : StarLocation :=
  mkStarLocation (loc_x l) (loc_y l) (loc_homeStar l) (linked l)
    (linkedLocations l) (resources l) (Some v).

(** [game.settings] and [game.constants], the parts [MapService] reads.
    A feature percentage of 0 is falsy and disables its pass. *)
Record Game := mkGame {
  galaxyType : string;
  resourceDistribution : string;
  playerLimit : Z;
  randomWarpGates : Z;
  randomWormHoles : Z;
  randomNebulas : Z;
  randomAsteroidFields : Z;
  randomBinaryStars : Z;
  randomBlackHoles : Z;
  randomPulsars : Z;
  splitResources : bool;          (* read by the game type service *)
  maxNaturalResources : Z
}.

Inductive JsError :=
  | ValidationError (message : string)
  | TypeError.

Inductive Outcome (A : Type) :=
  | Return (a : A)
  | Throw (e : JsError).
Arguments Return {A} a.
Arguments Throw {A} e.

(** ** Collaborators *)

(** What [MapService] consumes and this file does not define.  [rand] is
    a stateful generator object passed in by the caller;
    [this.randomService] and [this.starService] are services injected at
    construction, each with a state of its own (the source of its random
    numbers, the supply of fresh ids).  A call hands back the state it
    leaves behind. *)
Class Collaborators := {
  RandomGen : Type;
  shuffle : ∀ A : Type, RandomGen → list A → list A * RandomGen;
  RandomService : Type;
  getRandomNumberBetween : RandomService → float → float → Z * RandomService;
  isDeadStar : Star → bool;
  isSplitResources : Game → bool;
  StarService : Type;
  generateUnownedStar :
    StarService → option string → StarLocation → option NaturalResources →
    Star * StarService;
  generateCustomGalaxyStar :
    StarService → option string → StarLocation → Star * StarService;
  getRandomStarNames : nat → list string;
  circular_generateLocations : Game → nat → string → list StarLocation;
  spiral_generateLocations : Game → nat → string → list StarLocation;
  doughnut_generateLocations : Game → nat → string → list StarLocation;
  circularBalanced_generateLocations :
    Game → nat → string → Z → list StarLocation;
  irregular_generateLocations :
    RandomGen → Game → nat → string → Z → option string →
    list StarLocation * RandomGen;
  custom_generateLocations : option string → Z → list StarLocation
}.

(** ** Computations that may throw *)

(** A computation over a state [S]; a throw keeps the state as it was at
    that moment. *)
Definition M (S A : Type) : Type := S → Outcome A * S.

#[global] Instance M_ret {S} : MRet (M S) := λ A a w, (Return a, w).
#[global] Instance M_bind {S} : MBind (M S) := λ A B k m w,
  match m w with
  | (Return a, w') => k a w'
  | (Throw e, w') => (Throw e, w')
  end.

Definition throw {S A} (e : JsError) : M S A := λ w, (Throw e, w).

(** [for (let a of l) body]. *)
Fixpoint for_of {S A} (l : list A) (body : A → M S unit) : M S unit :=
  match l with
  | [] => mret ()
  | a :: l' => body a ;; for_of l' body
  end.

(** [for (let i = 0; i < n; i++) body]. *)
Definition for_upto {S} (n : Z) (body : nat → M S unit) : M S unit :=
  for_of (seq 0 (Z.to_nat n)) body.

(** ** The terrain layering engine *)

Section Terrain.
Context `{Collaborators}.

(** Everything a pass can read or write: the generator [rand], the
    random service, and the stars of [game.galaxy.stars]. *)
Record World := mkWorld {
  rand : RandomGen;
  randomService : RandomService;
  galaxy_stars : list Star
}.

Definition get_stars : M World (list Star) := λ w, (Return (galaxy_stars w), w).

(** A write through the reference [r]. *)
Definition write (r : nat) (f : Star → Star) : M World unit := λ w,
  (Return (), mkWorld (rand w) (randomService w) (alter f r (galaxy_stars w))).

(** A read of one field through the reference [r]; a reference that
    came out of a filter of the array always finds its star. *)
Definition read {A} (r : nat) (field : Star → A) : M World A := λ w,
  match galaxy_stars w !! r with
  | Some s => (Return (field s), w)
  | None => (Throw TypeError, w)
  end.

(** [shuffle(rand, a)]. *)
Definition shuffle_with_rand {A} (a : list A) : M World (list A) := λ w,
  let '(a', rand') := shuffle A (rand w) a in
  (Return a', mkWorld rand' (randomService w) (galaxy_stars w)).

(** [this.randomService.getRandomNumberBetween(min, max)]. *)
Definition randomService_getRandomNumberBetween (min max : float) : M World Z :=
  λ w,
  let '(v, rs') := getRandomNumberBetween (randomService w) min max in
  (Return v, mkWorld (rand w) rs' (galaxy_stars w)).

(** [stars.filter(p)]: the references of the stars that satisfy [p], in
    array order. *)
Definition filter_stars (p : Star → bool) (stars : list Star) : list nat :=
  filter (λ r, from_option p false (stars !! r)) (seq 0 (length stars)).

(** [Math.floor((stars.length - playerCount) / 100 * percentage)]. *)
Definition featureCount (len : nat) (playerCount percentage : Z) : Z :=
  Js.floor ((Js.of_nat len - Js.of_Z playerCount) / 100 * Js.of_Z percentage)%float.

(** [Math.floor((stars.length - playerCount) / 2 / 100 * percentage)]. *)
Definition wormHolePairCount (len : nat) (playerCount percentage : Z) : Z :=
  Js.floor ((Js.of_nat len - Js.of_Z playerCount) / 2 / 100 * Js.of_Z percentage)%float.

Definition _generateGates (playerCount percentage : Z) : M World unit :=
  stars ← get_stars;
  let gateCount := featureCount (length stars) playerCount percentage in
  let applicableStars :=
    filter_stars (λ s, negb (homeStar s) && negb (warpGate s) && negb (isDeadStar s)) stars in
  applicableStars ← shuffle_with_rand applicableStars;
  let warpGateStars := Js.slice0 applicableStars gateCount in
  for_of warpGateStars (λ star,
    write star (set_warpGate true)).

Definition _generateWormHoles (game : Game) (playerCount percentage : Z) : M World unit :=
  stars ← get_stars;
  let wormHoleCount := wormHolePairCount (length stars) playerCount percentage in
  let applicableStars :=
    filter_stars (λ s, negb (homeStar s) && negb (Js.truthy (wormHoleToStarId s))
                       && negb (isDeadStar s)) stars in
  applicableStars ← shuffle_with_rand applicableStars;
  let wormHoleStars := Js.slice0 applicableStars (wormHoleCount * 2) in
  for_upto wormHoleCount (λ i,
    match wormHoleStars !! (i * 2), wormHoleStars !! (i * 2 + 1) with
    | Some starA, Some starB =>
        idB ← read starB _id;
        write starA (set_wormHoleToStarId (Some idB));;
        idA ← read starA _id;
        write starB (set_wormHoleToStarId (Some idA))
    | _, _ => throw TypeError   (* a property of [undefined] *)
    end).

Definition _generateNebulas (game : Game) (playerCount percentage : Z) : M World unit :=
  stars ← get_stars;
  let count := featureCount (length stars) playerCount percentage in
  let applicableStars :=
    filter_stars (λ s, negb (homeStar s) && negb (isNebula s) && negb (isDeadStar s)) stars in
  applicableStars ← shuffle_with_rand applicableStars;
  let nebulaStars := Js.slice0 applicableStars count in
  for_of nebulaStars (λ nebulaStar,
    write nebulaStar (set_isNebula true);;
    if isSplitResources game then
      let minResources := (Js.of_Z (maxNaturalResources game) * 1.5)%float in
      let maxResources := (Js.of_Z (maxNaturalResources game) * 3)%float in
      v ← randomService_getRandomNumberBetween minResources maxResources;
      write nebulaStar (λ s, set_naturalResources (set_science v (naturalResources s)) s)
    else mret ()).

Definition _generateAsteroidFields (game : Game) (playerCount percentage : Z) : M World unit :=
  stars ← get_stars;
  let count := featureCount (length stars) playerCount percentage in
  let applicableStars :=
    filter_stars (λ s, negb (homeStar s) && negb (isAsteroidField s) && negb (isDeadStar s)) stars in
  applicableStars ← shuffle_with_rand applicableStars;
  let asteroidFieldStars := Js.slice0 applicableStars count in
  for_of asteroidFieldStars (λ asteroidFieldStar,
    write asteroidFieldStar (set_isAsteroidField true);;
    if isSplitResources game then
      let minResources := (Js.of_Z (maxNaturalResources game) * 1.5)%float in
      let maxResources := (Js.of_Z (maxNaturalResources game) * 3)%float in
      v ← randomService_getRandomNumberBetween minResources maxResources;
      write asteroidFieldStar (λ s, set_naturalResources (set_economy v (naturalResources s)) s)
    else mret ()).

Definition _generateBinaryStars (game : Game) (playerCount percentage : Z) : M World unit :=
  let minResources := (Js.of_Z (maxNaturalResources game) * 1.5)%float in
  let maxResources := (Js.of_Z (maxNaturalResources game) * 3)%float in
  stars ← get_stars;
  let count := featureCount (length stars) playerCount percentage in
  let applicableStars :=
    filter_stars (λ s, negb (homeStar s) && negb (isBinaryStar s) && negb (isDeadStar s)) stars in
  applicableStars ← shuffle_with_rand applicableStars;
  let binaryStars := Js.slice0 applicableStars count in
  for_of binaryStars (λ binaryStar,
    write binaryStar (set_isBinaryStar true);;
    if isSplitResources game then
      v ← randomService_getRandomNumberBetween minResources maxResources;
      write binaryStar (λ s, set_naturalResources (set_industry v (naturalResources s)) s)
    else
      resources ← randomService_getRandomNumberBetween minResources maxResources;
      write binaryStar (set_naturalResources (mkNaturalResources resources resources resources))).

Definition _generateBlackHoles (game : Game) (playerCount percentage : Z) : M World unit :=
  stars ← get_stars;
  let count := featureCount (length stars) playerCount percentage in
  let applicableStars :=
    filter_stars (λ s, negb (homeStar s) && negb (isBlackHole s) && negb (isDeadStar s)) stars in
  applicableStars ← shuffle_with_rand applicableStars;
  let blackHoleStars := Js.slice0 applicableStars count in
  for_of blackHoleStars (λ blackHoleStar,
    write blackHoleStar (set_isBlackHole true);;
    write blackHoleStar (λ s, set_naturalResources
      (set_economy (Js.ceil_times_0_2 (economy (naturalResources s))) (naturalResources s)) s);;
    write blackHoleStar (λ s, set_naturalResources
      (set_industry (Js.ceil_times_0_2 (industry (naturalResources s))) (naturalResources s)) s);;
    write blackHoleStar (λ s, set_naturalResources
      (set_science (Js.ceil_times_0_2 (science (naturalResources s))) (naturalResources s)) s)).

Definition _generatePulsars (game : Game) (playerCount percentage : Z) : M World unit :=
  stars ← get_stars;
  let count := featureCount (length stars) playerCount percentage in
  let applicableStars :=
    filter_stars (λ s, negb (homeStar s) && negb (isPulsar s) && negb (isDeadStar s)) stars in
  applicableStars ← shuffle_with_rand applicableStars;
  let pulsarStars := Js.slice0 applicableStars count in
  for_of pulsarStars (λ pulsarStar,
    write pulsarStar (set_isPulsar true)).

(** [if (percentage) pass]: a percentage of 0 is falsy. *)
Definition when_enabled (percentage : Z) (pass : M World unit) : M World unit :=
  if (percentage =? 0)%Z then mret () else pass.

Definition generateTerrain (game : Game) : M World unit :=
  let playerCount := playerLimit game in
  when_enabled (randomWarpGates game)
    (_generateGates playerCount (randomWarpGates game));;
  when_enabled (randomWormHoles game)
    (_generateWormHoles game playerCount (randomWormHoles game));;
  when_enabled (randomNebulas game)
    (_generateNebulas game playerCount (randomNebulas game));;
  when_enabled (randomAsteroidFields game)
    (_generateAsteroidFields game playerCount (randomAsteroidFields game));;
  when_enabled (randomBinaryStars game)
    (_generateBinaryStars game playerCount (randomBinaryStars game));;
  when_enabled (randomBlackHoles game)
    (_generateBlackHoles game playerCount (randomBlackHoles game));;
  when_enabled (randomPulsars game)
    (_generatePulsars game playerCount (randomPulsars game)).
End Terrain.

(** ** The galaxy assembler *)

Section Assembler.
Context `{Collaborators}.

(** The local variables of [generateStars] together with the two
    stateful objects it drives. *)
Record Locals := mkLocals {
  stars : list Star;
  homeStars : list ObjectId;
  linkedStars : list (list ObjectId);
  starNamesIndex : nat;
  starService : StarService;
  locals_rand : RandomGen
}.

(** The object [generateStars] returns.  Its fourth field,
    [starLocations], is the strategy's own array handed back (with the
    names written into it for naming carriers); nothing below reads
    it. *)
Record AssemblyResult := mkAssemblyResult {
  result_stars : list Star;
  result_homeStars : list ObjectId;
  result_linkedStars : list (list ObjectId)
}.

(** One instantiation: take the next name ([undefined] past the end of
    the pool), write it into the location, call the star factory, push
    the star.  The new star is returned. *)
Definition instantiate (isCustomGalaxy : bool) (starNames : list string)
    (starLocation : StarLocation) : M Locals Star := λ l,
  let starName := starNames !! starNamesIndex l in
  let starLocation := set_loc_name starName starLocation in
  let '(star, service) :=
    if isCustomGalaxy
    then generateCustomGalaxyStar (starService l) starName starLocation
    else generateUnownedStar (starService l) starName starLocation
           (resources starLocation) in
  (Return star,
   mkLocals (stars l ++ [star]) (homeStars l) (linkedStars l)
     (S (starNamesIndex l)) service (locals_rand l)).

(** The [switch] over the topology tag. *)
Definition select_locations (game : Game) (starCount : nat) (playerLimit : Z)
    (customJSON customSeed : option string) : M Locals (list StarLocation) := λ l,
  let t := galaxyType game in
  if String.eqb t "circular" then
    (Return (circular_generateLocations game starCount (resourceDistribution game)), l)
  else if String.eqb t "spiral" then
    (Return (spiral_generateLocations game starCount (resourceDistribution game)), l)
  else if String.eqb t "doughnut" then
    (Return (doughnut_generateLocations game starCount (resourceDistribution game)), l)
  else if String.eqb t "circular-balanced" then
    (Return (circularBalanced_generateLocations game starCount
               (resourceDistribution game) playerLimit), l)
  else if String.eqb t "irregular" then
    let '(locations, rand') :=
      irregular_generateLocations (locals_rand l) game starCount
        (resourceDistribution game) playerLimit customSeed in
    (Return locations,
     mkLocals (stars l) (homeStars l) (linkedStars l) (starNamesIndex l)
       (starService l) rand')
  else if String.eqb t "custom" then
    (Return (custom_generateLocations customJSON playerLimit), l)
  else
    (Throw (ValidationError
              ("Galaxy type " +:+ t +:+ " is not supported or has been disabled.")), l).

(** The body of the loop over the satellites of one home location; the
    ids pushed so far are threaded as [locLinkedStars]. *)
Fixpoint link_loop (isCustomGalaxy : bool) (starNames : list string)
    (locations : list StarLocation) (locLinkedStars : list ObjectId)
    : M Locals (list ObjectId) :=
  match locations with
  | [] => mret locLinkedStars
  | linkedLocation :: rest =>
      linkedStar ← instantiate isCustomGalaxy starNames linkedLocation;
      link_loop isCustomGalaxy starNames rest (locLinkedStars ++ [_id linkedStar])
  end.

(** [homeStars.push(id); linkedStars.push(locLinkedStars)]. *)
Definition push_home (id : ObjectId) (locLinkedStars : list ObjectId)
    : M Locals unit := λ l,
  (Return (),
   mkLocals (stars l) (homeStars l ++ [id]) (linkedStars l ++ [locLinkedStars])
     (starNamesIndex l) (starService l) (locals_rand l)).

(** [return { stars, homeStars, linkedStars, starLocations }]. *)
Definition return_result : M Locals AssemblyResult := λ l,
  (Return (mkAssemblyResult (stars l) (homeStars l) (linkedStars l)), l).

(** The body of the loop over the primaries. *)
Definition star_loop_body (isCustomGalaxy : bool) (starNames : list string)
    (starLocation : StarLocation) : M Locals unit :=
  star ← instantiate isCustomGalaxy starNames starLocation;
  if loc_homeStar starLocation then
    match linkedLocations starLocation with
    | None => throw TypeError   (* [undefined] is not iterable *)
    | Some locations =>
        locLinkedStars ← link_loop isCustomGalaxy starNames locations [];
        push_home (_id star) locLinkedStars
    end
  else mret ().

Definition generateStars_body (game : Game) (starCount : nat) (playerLimit : Z)
    (customJSON customSeed : option string) : M Locals AssemblyResult :=
  let starNames := getRandomStarNames starCount in
  starLocations ← select_locations game starCount playerLimit customJSON customSeed;
  let isCustomGalaxy := String.eqb (galaxyType game) "custom" in
  let unlinkedStars := filter (λ l, negb (linked l)) starLocations in
  for_of unlinkedStars (star_loop_body isCustomGalaxy starNames);;
  return_result.

(** [generateStars(rand, game, starCount, playerLimit, customJSON,
    customSeed)], started with the star service in state [service]: the
    outcome, and the locals as they stood when it returned or threw. *)
Definition generateStars (rand : RandomGen) (service : StarService) (game : Game)
    (starCount : nat) (playerLimit : Z) (customJSON customSeed : option string)
    : Outcome AssemblyResult * Locals :=
  generateStars_body game starCount playerLimit customJSON customSeed
    (mkLocals [] [] [] 0 service rand).
End Assembler.

(** ** Geometry queries *)

(** Each query is given with the array as the call leaves it. *)

Definition getGalaxyCenter (starLocations : list Location)
    : Outcome Location * list Location :=
  match starLocations with
  | [] => (Return (mkLocation 0 0), starLocations)
  | _ =>
      let byMaxX := Js.sort (λ a b, x b - x a)%float starLocations in
      let byMaxY := Js.sort (λ a b, y b - y a)%float byMaxX in
      let byMinX := Js.sort (λ a b, x a - x b)%float byMaxY in
      let byMinY := Js.sort (λ a b, y a - y b)%float byMinX in
      match byMaxX, byMaxY, byMinX, byMinY with
      | pMaxX :: _, pMaxY :: _, pMinX :: _, pMinY :: _ =>
          let maxX := x pMaxX in
          let maxY := y pMaxY in
          let minX := x pMinX in
          let minY := y pMinY in
          (Return (mkLocation ((minX + maxX) / 2) ((minY + maxY) / 2))%float, byMinY)
      | _, _, _, _ => (Throw TypeError, byMinY)
      end
  end.

Definition getGalaxyCenterOfMass (starLocations : list Location)
    : Outcome Location * list Location :=
  match starLocations with
  | [] => (Return (mkLocation 0 0), starLocations)
  | _ =>
      let totalX := foldl (λ total s, total + x s)%float 0%float starLocations in
      let totalY := foldl (λ total s, total + y s)%float 0%float starLocations in
      (Return (mkLocation (totalX / Js.of_nat (length starLocations))
                          (totalY / Js.of_nat (length starLocations)))%float,
       starLocations)
  end.

(** ** A concrete set of collaborators

    One instance of [Collaborators], used to run the program on concrete
    galaxies: a linear congruential generator behind both [rand] and the
    random service, the selection form of the Fisher-Yates shuffle, a star
    service that numbers its stars, and a map service that lays the
    locations out on a line. *)

Module Sample.

Definition lcg (s : Z) : Z := ((s * 1103515245 + 12345) mod 2147483648)%Z.

(** Fisher-Yates: move a uniformly drawn element of what remains to the
    output, until nothing remains. *)
Fixpoint fisher_yates {A} (n : nat) (s : Z) (a : list A) : list A * Z :=
  match n with
  | O => (a, s)
  | S n' =>
      let s' := lcg s in
      let j := Z.to_nat ((s' / 65536) mod Z.of_nat (length a))%Z in
      match a !! j with
      | Some v =>
          let '(rest, s'') := fisher_yates n' s' (delete j a) in
          (v :: rest, s'')
      | None => (a, s')
      end
  end.

Definition sample_shuffle (A : Type) (s : Z) (a : list A) : list A * Z :=
  fisher_yates (length a) s a.

Definition sample_getRandomNumberBetween (s : Z) (min max : float) : Z * Z :=
  let s' := lcg s in
  let lo := Js.ceil min in
  let hi := Js.floor max in
  ((lo + (s' / 65536) mod (hi - lo + 1))%Z, s').

(** A dead star has no natural resources left. *)
Definition sample_isDeadStar (s : Star) : bool :=
  (economy (naturalResources s) <=? 0)%Z
  && (industry (naturalResources s) <=? 0)%Z
  && (science (naturalResources s) <=? 0)%Z.

(** The star service numbers the stars it makes; the new star has no
    terrain feature and takes its home flag from the location. *)
Definition sample_star (id : nat) (name : option string) (l : StarLocation)
    (r : option NaturalResources) : Star :=
  mkStar id name (mkLocation (loc_x l) (loc_y l)) None
    (default (mkNaturalResources 0 0 0) r)
    (loc_homeStar l) false None false false false false false.

Definition sample_generateUnownedStar (id : nat) (name : option string)
    (l : StarLocation) (r : option NaturalResources) : Star * nat :=
  (sample_star id name l r, S id).

Definition sample_generateCustomGalaxyStar (id : nat) (name : option string)
    (l : StarLocation) : Star * nat :=
  (sample_star id name l (resources l), S id).

Definition pool : list string :=
  ["Sol"; "Vega"; "Altair"; "Deneb"; "Rigel"; "Mira"; "Atria"; "Naos"].

Definition sample_getRandomStarNames (n : nat) : list string := take n pool.

Definition plain (i : nat) : StarLocation :=
  mkStarLocation (Js.of_nat i) 0 false false None
    (Some (mkNaturalResources 10 10 10)) None.

Definition satellite (i : nat) : StarLocation :=
  mkStarLocation (Js.of_nat i) 1 false true None
    (Some (mkNaturalResources 10 10 10)) None.

(** One home location with one satellite, then plain locations. *)
Definition line (starCount : nat) : list StarLocation :=
  mkStarLocation 0 0 true false (Some [satellite 0])
    (Some (mkNaturalResources 10 10 10)) None
  :: satellite 0 :: (plain <$> seq 1 (starCount - 2)).

#[export] Instance sample : Collaborators := {|
  RandomGen := Z;
  shuffle := sample_shuffle;
  RandomService := Z;
  getRandomNumberBetween := sample_getRandomNumberBetween;
  isDeadStar := sample_isDeadStar;
  isSplitResources := splitResources;
  StarService := nat;
  generateUnownedStar := sample_generateUnownedStar;
  generateCustomGalaxyStar := sample_generateCustomGalaxyStar;
  getRandomStarNames := sample_getRandomStarNames;
  circular_generateLocations := λ _ n _, line n;
  spiral_generateLocations := λ _ n _, line n;
  doughnut_generateLocations := λ _ n _, line n;
  circularBalanced_generateLocations := λ _ n _ _, line n;
  irregular_generateLocations := λ s _ n _ _ _, (line n, lcg s);
  custom_generateLocations := λ _ _, line 2
|}.

(** A game of the given topology with every feature pass disabled. *)
Definition quiet (topology : string) (players : Z) : Game :=
  mkGame topology "random" players 0 0 0 0 0 0 0 false 50.

(** A star without features. *)
Definition star (id : nat) (home : bool) (r : Z) : Star :=
  mkStar id None (mkLocation 0 0) None (mkNaturalResources r r r)
    home false None false false false false false.

(** A world over the sample collaborators: the two generator states and
    the stars. *)
Definition world (seed service : Z) (stars : list Star) : @World sample :=
  @mkWorld sample seed service stars.
End Sample.

(** * Specification vocabulary *)

Section Vocabulary.
Context `{Collaborators}.

(** The contract of [shuffle]: the array afterwards is a rearrangement of
    the array before. *)
Definition shuffle_permutes `{Collaborators} : Prop :=
  ∀ (A : Type) (r : RandomGen) (a : list A), (shuffle A r a).1 ≡ₚ a.

(** Ids tell the stars of a galaxy apart. *)
Definition distinct_ids (stars : list Star) : Prop := NoDup (_id <$> stars).

(** Wormhole pairing is mutual and irreflexive: whenever the star at
    position [a] points to the id of the star at position [b], that star
    points back, and the two are different stars. *)
Definition wormholes_mutual (stars : list Star) : Prop :=
  ∀ a b sa sb,
    stars !! a = Some sa → stars !! b = Some sb →
    wormHoleToStarId sa = Some (_id sb) →
    wormHoleToStarId sb = Some (_id sa) ∧ a ≠ b.

(** The stars a pass marked: those that did not satisfy [flag] before and
    do afterwards, by position. *)
Definition marked (flag : Star → bool) (before after : list Star) : list nat :=
  filter (λ r, from_option flag false (before !! r) = false
               ∧ from_option flag false (after !! r) = true)
         (seq 0 (length before)).

(** The stars a pass may pick: not a home star, not carrying the feature
    of the pass, not dead. *)
Definition applicable `{Collaborators} (flag : Star → bool) (s : Star) : bool :=
  negb (homeStar s) && negb (flag s) && negb (isDeadStar s).

(** What the black-hole pass does to the star it picks. *)
Definition collapsed (s : Star) : Star :=
  set_naturalResources
    (mkNaturalResources (Js.ceil_times_0_2 (economy (naturalResources s)))
                        (Js.ceil_times_0_2 (industry (naturalResources s)))
                        (Js.ceil_times_0_2 (science (naturalResources s))))
    (set_isBlackHole true s).

(** A loop body that, on reference [r], only rewrites the star behind
    [r], by a function that relates the old star to the new one by [P];
    it may consume random numbers of the random service. *)
Definition updates_only (P : Star → Star → Prop) (body : nat → M World unit) : Prop :=
  ∀ r w, ∃ f rs,
    body r w = (Return (), mkWorld (rand w) rs (alter f r (galaxy_stars w)))
    ∧ ∀ s, P s (f s).

(** The stars after a pass that picked [winners]: the picked ones are
    rewritten along [P], all others are as before. *)
Definition rewritten (P : Star → Star → Prop) (winners : list nat)
    (before after : list Star) : Prop :=
  length after = length before
  ∧ (∀ r, r ∉ winners → after !! r = before !! r)
  ∧ (∀ r s, r ∈ winners → before !! r = Some s →
       ∃ s', after !! r = Some s' ∧ P s s').

(** The common shape of the six single-star passes: count, filter,
    shuffle, slice, loop. *)
Definition single_star_pass (flag : Star → bool) (playerCount percentage : Z)
    (body : nat → M World unit) : M World unit :=
  stars ← get_stars;
  let count := featureCount (length stars) playerCount percentage in
  applicableStars ← shuffle_with_rand (filter_stars (applicable flag) stars);
  for_of (Js.slice0 applicableStars count) body.

(** The references a single-star pass picks in world [w]. *)
Definition winners (flag : Star → bool) (playerCount percentage : Z) (w : World)
    : list nat :=
  Js.slice0 (shuffle nat (rand w) (filter_stars (applicable flag) (galaxy_stars w))).1
            (featureCount (length (galaxy_stars w)) playerCount percentage).

(** The update of a feature pass: the flag is raised and the natural
    resources may be overwritten; nothing else changes. *)
Definition feature_update (raise : bool → Star → Star) (s s' : Star) : Prop :=
  ∃ nr, s' = set_naturalResources nr (raise true s).

(** The six features assigned one star at a time, with the flag each
    pass tests and raises and the pass itself. *)
Inductive Feature :=
  | WarpGates | Nebulas | AsteroidFields | BinaryStars | BlackHoles | Pulsars.

Definition flag_of (f : Feature) : Star → bool :=
  match f with
  | WarpGates => warpGate
  | Nebulas => isNebula
  | AsteroidFields => isAsteroidField
  | BinaryStars => isBinaryStar
  | BlackHoles => isBlackHole
  | Pulsars => isPulsar
  end.

Definition raise_of (f : Feature) : bool → Star → Star :=
  match f with
  | WarpGates => set_warpGate
  | Nebulas => set_isNebula
  | AsteroidFields => set_isAsteroidField
  | BinaryStars => set_isBinaryStar
  | BlackHoles => set_isBlackHole
  | Pulsars => set_isPulsar
  end.

Definition pass_of `{Collaborators} (f : Feature) (game : Game)
    (playerCount percentage : Z) : M World unit :=
  match f with
  | WarpGates => _generateGates playerCount percentage
  | Nebulas => _generateNebulas game playerCount percentage
  | AsteroidFields => _generateAsteroidFields game playerCount percentage
  | BinaryStars => _generateBinaryStars game playerCount percentage
  | BlackHoles => _generateBlackHoles game playerCount percentage
  | Pulsars => _generatePulsars game playerCount percentage
  end.

(** The star with its natural resources blanked: everything a pass
    decides from the shuffle alone. *)
Definition features (s : Star) : Star :=
  set_naturalResources (mkNaturalResources 0 0 0) s.

(** The filter of the wormhole pass: "not already paired" in place of
    the flag. *)
Definition paired (s : Star) : bool := Js.truthy (wormHoleToStarId s).

(** The sliced winner list of the wormhole pass in world [w]. *)
Definition wormHoleStars (playerCount percentage : Z) (w : World) : list nat :=
  Js.slice0 (shuffle nat (rand w) (filter_stars (applicable paired) (galaxy_stars w))).1
            (wormHolePairCount (length (galaxy_stars w)) playerCount percentage * 2).

(** The body of the pairing loop over the winner list [ws]. *)
Definition pair_body (ws : list nat) (i : nat) : M World unit :=
  match ws !! (i * 2), ws !! (i * 2 + 1) with
  | Some starA, Some starB =>
      idB ← read starB _id;
      write starA (set_wormHoleToStarId (Some idB));;
      idA ← read starA _id;
      write starB (set_wormHoleToStarId (Some idA))
  | _, _ => throw TypeError
  end.

(** The two writes of one iteration. *)
Definition pair_up (a b : nat) (sa sb : Star) (st : list Star) : list Star :=
  alter (set_wormHoleToStarId (Some (_id sa))) b
    (alter (set_wormHoleToStarId (Some (_id sb))) a st).

(** What the pairing loop has done to the stars after [n] iterations
    over the winner list [ws], started from [st0]. *)
Definition paired_off (ws : list nat) (st0 : list Star) (n : nat) (st : list Star) : Prop :=
  length st = length st0
  ∧ _id <$> st = _id <$> st0
  ∧ (∀ r, r ∉ take (2 * n) ws → st !! r = st0 !! r)
  ∧ (∀ r, r ∈ take (2 * n) ws →
       ∃ s, st !! r = Some s ∧ is_Some (wormHoleToStarId s))
  ∧ (∀ r s, st !! r = Some s →
       ∃ s0, st0 !! r = Some s0 ∧ s = set_wormHoleToStarId (wormHoleToStarId s) s0)
  ∧ (distinct_ids st0 → wormholes_mutual st0 → wormholes_mutual st).

(** A computation keeps a relation between the stars before and the
    stars after, whether it returns or throws. *)
Definition preserves (R : list Star → list Star → Prop) (m : M World unit) : Prop :=
  ∀ w o w', m w = (o, w') → R (galaxy_stars w) (galaxy_stars w').

(** Home stars are left as they are. *)
Definition home_untouched (before after : list Star) : Prop :=
  ∀ r s, before !! r = Some s → homeStar s = true → after !! r = Some s.

(** Ids stay distinct and the pairing stays mutual. *)
Definition pairing_kept (before after : list Star) : Prop :=
  distinct_ids before ∧ wormholes_mutual before →
  distinct_ids after ∧ wormholes_mutual after.

(** The topology tags of the [switch]. *)
Definition supported (t : string) : Prop :=
  t ∈ ["circular"; "spiral"; "doughnut"; "circular-balanced"; "irregular"; "custom"].

(** The stars a list of locations calls for: one per primary, and one per
    satellite of a home location. *)
Definition required_stars (locations : list StarLocation) : nat :=
  sum_list ((λ l, if loc_homeStar l
                  then S (length (default [] (linkedLocations l)))
                  else 1)
            <$> filter (λ l, negb (linked l)) locations).

(** The contract of the star factory that matters for naming: the star
    carries the name it was given. *)
Definition factory_keeps_names `{Collaborators} : Prop :=
  (∀ service n l r, name (generateUnownedStar service n l r).1 = n)
  ∧ (∀ service n l, name (generateCustomGalaxyStar service n l).1 = n).

(** The names handed out so far follow the pool in order: the star made
    [k]-th carries [starNames[k]], which is [undefined] past the end of
    the pool. *)
Definition named (starNames : list string) (l : Locals) : Prop :=
  starNamesIndex l = length (stars l)
  ∧ ∀ k s, stars l !! k = Some s → name s = starNames !! k.

(** The locations the selected map service hands out ([[]] when the
    topology is not supported). *)
Definition locations_of (rand : RandomGen) (service : StarService) (game : Game)
    (starCount : nat) (playerLimit : Z) (customJSON customSeed : option string)
    : list StarLocation :=
  match (select_locations game starCount playerLimit customJSON customSeed
           (mkLocals [] [] [] 0 service rand)).1 with
  | Return locations => locations
  | Throw _ => []
  end.

(** What no pass writes: the identity of a star, its place, its owner and
    its home flag. *)
Definition core (s : Star)
    : ObjectId * option string * Location * option ObjectId * bool :=
  (_id s, name s, location s, ownedByPlayerId s, homeStar s).

(** The features of [s'] extend those of [s]: a flag that was raised is
    still raised, a wormhole still leads to the same star. *)
Definition features_grow (s s' : Star) : Prop :=
  (warpGate s = true → warpGate s' = true)
  ∧ (isNebula s = true → isNebula s' = true)
  ∧ (isAsteroidField s = true → isAsteroidField s' = true)
  ∧ (isBinaryStar s = true → isBinaryStar s' = true)
  ∧ (isBlackHole s = true → isBlackHole s' = true)
  ∧ (isPulsar s = true → isPulsar s' = true)
  ∧ (∀ v, wormHoleToStarId s = Some v → wormHoleToStarId s' = Some v).

(** The same star with features added. *)
Definition grown (s s' : Star) : Prop := core s' = core s ∧ features_grow s s'.

(** The same stars, position by position, with features added. *)
Definition galaxy_grown (before after : list Star) : Prop :=
  length after = length before
  ∧ ∀ r s s', before !! r = Some s → after !! r = Some s' → grown s s'.

(** Dead stars are left as they are. *)
Definition dead_untouched (before after : list Star) : Prop :=
  ∀ r s, before !! r = Some s → isDeadStar s = true → after !! r = Some s.



(** The stars made for one primary location: the primary and, for a
    home location, its satellites. *)
Definition Block : Type := Star * option (list Star).

Definition block_stars (b : Block) : list Star := b.1 :: default [] b.2.

Definition block_home (b : Block) : option ObjectId :=
  match b.2 with Some _ => Some (_id b.1) | None => None end.

Definition block_linked (b : Block) : option (list ObjectId) :=
  match b.2 with
  | Some satellites => Some (_id <$> satellites)
  | None => None
  end.

(** A block answers a location: satellites exactly for a home location,
    one per linked location. *)
Definition block_fits (loc : StarLocation) (b : Block) : Prop :=
  match b.2 with
  | Some satellites =>
      loc_homeStar loc = true
      ∧ length satellites = length (default [] (linkedLocations loc))
  | None => loc_homeStar loc = false
  end.

(** The locals of [generateStars] after the blocks [blocks] have been
    made for the primaries [primaries]: the stars are the blocks in
    order, each home star followed by its satellites; [homeStars] holds
    the ids of the home stars and [linkedStars] the ids of their
    satellites, group by group, in the same order. *)
Definition assembled (primaries : list StarLocation) (blocks : list Block)
    (l : Locals) : Prop :=
  Forall2 block_fits primaries blocks
  ∧ stars l = blocks ≫= block_stars
  ∧ homeStars l = omap block_home blocks
  ∧ linkedStars l = omap block_linked blocks.

(** A home location carries its satellites. *)
Definition has_satellites (loc : StarLocation) : Prop :=
  loc_homeStar loc = true → is_Some (linkedLocations loc).

(** Two doubles are the same value (the same sign, mantissa and
    exponent, the same zero, the same infinity, or both NaN). *)
Definition same_double (a b : float) : bool :=
  match Prim2SF a, Prim2SF b with
  | S754_zero s, S754_zero t => Bool.eqb s t
  | S754_infinity s, S754_infinity t => Bool.eqb s t
  | S754_nan, S754_nan => true
  | S754_finite s m e, S754_finite t n f =>
      Bool.eqb s t && (m =? n)%positive && (e =? f)%Z
  | _, _ => false
  end.

(** The double quotient [d / divisor * p], floored, is the exact floor of
    [n * p / divisor] or one less. *)
Definition within_one (divide : float → float) (divisor n p : Z) : bool :=
  let c := Js.floor (divide (Js.of_Z n) * Js.of_Z p)%float in
  let exact := (n * p / divisor)%Z in
  ((exact - 1 <=? c) && (c <=? exact))%Z.
(** Every wormhole leads to a star of the galaxy: the id it holds is the
    id of one of the stars. *)
Definition wormholes_closed (stars : list Star) : Prop :=
  ∀ a sa v, stars !! a = Some sa → wormHoleToStarId sa = Some v →
    v ∈ (_id <$> stars).

(** Wormholes that led to a star of the galaxy still do. *)
Definition ends_kept (before after : list Star) : Prop :=
  wormholes_closed before → wormholes_closed after.
End Vocabulary.

(** ** Sample galaxies *)

Section SampleGalaxies.
#[local] Existing Instance Sample.sample.

(** A galaxy of two home stars and two dead stars, for two players. *)
Definition two_dead : @World Sample.sample :=
  Sample.world 1 1
    [Sample.star 0 true 10; Sample.star 1 true 10;
     Sample.star 2 false 0; Sample.star 3 false 0].

(** A galaxy of [n] stars of which the first [homes] are home stars. *)
Definition galaxy (homes n : nat) : list Star :=
  (λ i, Sample.star i (bool_decide (i < homes)) 10) <$> seq 0 n.

(** A game of 2 players with half of the eligible stars to be paired by
    wormholes and half to collapse into black holes. *)
Definition holes : Game :=
  mkGame "circular" "random" 2 0 50 0 0 0 50 0 false 50.

(** A game of 2 players in which half of the eligible stars become
    binary stars. *)
Definition binaries : Game :=
  mkGame "circular" "random" 2 0 0 0 0 50 0 0 false 50.

(** Three live stars followed by three dead ones, none of them a home
    star. *)
Definition half_dead : list Star :=
  [Sample.star 0 false 10; Sample.star 1 false 10; Sample.star 2 false 10;
   Sample.star 3 false 0; Sample.star 4 false 0; Sample.star 5 false 0].

(** A game without players in which every eligible star is to be paired
    by a wormhole and every star is to become a pulsar. *)
Definition crowded : Game :=
  mkGame "circular" "random" 0 0 100 0 0 0 0 100 false 50.

(** The sample collaborators with a custom map service that hands out a
    plain location followed by a home location without satellites. *)
Definition orphaned : Collaborators := {|
  RandomGen := Z;
  shuffle := Sample.sample_shuffle;
  RandomService := Z;
  getRandomNumberBetween := Sample.sample_getRandomNumberBetween;
  isDeadStar := Sample.sample_isDeadStar;
  isSplitResources := splitResources;
  StarService := nat;
  generateUnownedStar := Sample.sample_generateUnownedStar;
  generateCustomGalaxyStar := Sample.sample_generateCustomGalaxyStar;
  getRandomStarNames := Sample.sample_getRandomStarNames;
  circular_generateLocations := λ _ n _, Sample.line n;
  spiral_generateLocations := λ _ n _, Sample.line n;
  doughnut_generateLocations := λ _ n _, Sample.line n;
  circularBalanced_generateLocations := λ _ n _ _, Sample.line n;
  irregular_generateLocations := λ s _ n _ _ _, (Sample.line n, Sample.lcg s);
  custom_generateLocations := λ _ _,
    [Sample.plain 1;
     mkStarLocation 0 0 true false None (Some (mkNaturalResources 10 10 10)) None;
     Sample.plain 2]
|}.
End SampleGalaxies.

(** * Request validators (server/api/validate.ts)

    A validator is a function from the value it is handed to the value it
    lets through; it rejects by throwing.  The embedding keeps that shape:
    a validator is a function into [Outcome].

    - The values are those [JSON.parse] yields, with [undefined], a
      [BigInt] and a function added for the remaining answers of [typeof].
      An array, an object or a function is equal ([===]) only to itself;
      a validated value arrives with a request and is never the very
      object a validator holds, so [strict_equal] answers [false] on them.
    - What the host gives and this file does not define is the class
      [Host]: how a value prints ([value.toString()] and a template
      literal), how a thrown error prints and what its [message] is, what
      a property read [v[key]] finds, which keys [for ... in] visits, and
      the two constructors [Date] and [objectIdFromString].
    - An object a validator builds, [res] in [record] and [n] in [object],
      is given by the assignments [res[key] = value] made to the fresh
      [{}], in order. *)

Module Validate.

#[warnings="-register-all"]
Inductive JsValue :=
  | JUndefined
  | JNull
  | JBoolean (b : bool)
  | JNumber (n : float)
  | JBigInt (z : Z)
  | JString (s : String.string)
  | JFunction (name : String.string)
  | JArray (items : list JsValue)
  | JObject (members : list (String.string * JsValue)).

Definition typeof (v : JsValue) : String.string :=
  match v with
  | JUndefined => "undefined"
  | JNull => "object"
  | JBoolean _ => "boolean"
  | JNumber _ => "number"
  | JBigInt _ => "bigint"
  | JString _ => "string"
  | JFunction _ => "function"
  | JArray _ | JObject _ => "object"
  end.

(** [a === b]. *)
Definition strict_equal (a b : JsValue) : bool :=
  match a, b with
  | JUndefined, JUndefined => true
  | JNull, JNull => true
  | JBoolean x, JBoolean y => Bool.eqb x y
  | JNumber x, JNumber y => (x =? y)%float
  | JBigInt x, JBigInt y => (x =? y)%Z
  | JString x, JString y => String.eqb x y
  | _, _ => false
  end.

(** [s.substring(start)]: [s] without its first [start] characters. *)
Fixpoint substring_from (start : nat) (s : String.string) : String.string :=
  match start, s with
  | 0, _ => s
  | S n, String _ s' => substring_from n s'
  | S _, EmptyString => EmptyString
  end.

(** [Math.sign]. *)
Definition Math_sign (n : float) : float :=
  if (n <? 0)%float then (-1)%float
  else if (0 <? n)%float then 1%float
  else n.

(** [Number.isInteger]: a zero, or a finite double [m * 2^e] that is a
    whole number. *)
Definition Number_isInteger (n : float) : bool :=
  match Prim2SF n with
  | S754_zero _ => true
  | S754_finite _ m e => ((0 <=? e) || (Z.pos m mod 2 ^ (- e) =? 0))%Z
  | _ => false
  end.

(** The double in a value that [number] has let through. *)
Definition double_of (v : JsValue) : float :=
  match v with JNumber n => n | _ => nan end.

Class Host := {
  (** [value.toString()] on a value other than [null] and [undefined] *)
  toString_of : JsValue → Outcome String.string;
  (** [`${value}`] *)
  template : JsValue → String.string;
  (** [`${e}`] on a thrown error *)
  error_toString : JsError → String.string;
  (** [err.message] *)
  error_message : JsError → String.string;
  (** [v[key]] on a value other than [null] and [undefined] *)
  property : JsValue → String.string → JsValue;
  (** the keys [for (const key in v)] visits, in order *)
  enumerable_keys : JsValue → list String.string;
  Date : Type;
  new_Date : JsValue → Date;
  DBObjectId : Type;
  objectIdFromString : JsValue → Outcome DBObjectId
}.

#[export] Instance Outcome_ret : MRet Outcome := λ A a, Return a.
#[export] Instance Outcome_bind : MBind Outcome := λ A B k m,
  match m with
  | Return a => k a
  | Throw e => Throw e
  end.

Definition Validator (A : Type) : Type := JsValue → Outcome A.

Section Validators.
Context `{Host}.

(** [value.toString()]: reading a property of [null] or [undefined]
    throws. *)
Definition toString (value : JsValue) : Outcome String.string :=
  match value with
  | JUndefined | JNull => Throw TypeError
  | _ => toString_of value
  end.

(** [v[key]]. *)
Definition get (v : JsValue) (key : String.string) : Outcome JsValue :=
  match v with
  | JUndefined | JNull => Throw TypeError
  | _ => Return (property v key)
  end.

(** The keys of [for (const key in v)]; the loop over [null] or
    [undefined] has no iteration. *)
Definition keys_in (v : JsValue) : list String.string :=
  match v with
  | JUndefined | JNull => []
  | _ => enumerable_keys v
  end.

Definition failed (expected : String.string) (value : JsValue) : Outcome JsError :=
  text ← toString value;
  mret (ValidationError
          ("Expected " +:+ expected +:+ ", but got: "
           +:+ substring_from 1000 text +:+ " " +:+ typeof value)).

(** [throw failed(expected, value)]. *)
Definition throw_failed {A} (expected : String.string) (value : JsValue) : Outcome A :=
  match failed expected value with
  | Return e => Throw e
  | Throw e => Throw e
  end.

Definition primitive (t : String.string) : Validator JsValue := λ value,
  if strict_equal value JNull || strict_equal value JUndefined
     || negb (String.eqb (typeof value) t)
  then throw_failed t value
  else Return value.

Definition string : Validator JsValue := primitive "string".

Definition number : Validator JsValue := primitive "number".

Definition boolean : Validator JsValue := primitive "boolean".

Definition bigInt : Validator JsValue := primitive "bigint".

Definition anyObject : Validator JsValue := primitive "object".

Definition date : Validator Date := λ v,
  if String.eqb (typeof v) "string" then Return (new_Date v)
  else throw_failed "date" v.

Definition map {A B} (mapper : A → Outcome B) (validator : Validator A)
    : Validator B := λ v,
  a ← validator v; mapper a.

Definition bind {A B} (binder : A → Validator B) (validator : Validator A)
    : Validator B := λ v,
  res ← validator v;
  let bi := binder res in
  bi v.

Definition named {A} (name : String.string) (validator : Validator A)
    : Validator A := λ v,
  match validator v with
  | Return a => Return a
  | Throw e =>
      Throw (ValidationError (name +:+ " validation failed: " +:+ error_toString e))
  end.

Definition andR {A B} (a : Validator A) (b : Validator B) : Validator B := λ v,
  a v ;; b v.

Definition andL {A B} (a : Validator A) (b : Validator B) : Validator A := λ v,
  b v ;; a v.

(** The union [A | B] of the two results is one type here. *)
Definition or {A} (a b : Validator A) : Validator A := λ v,
  match a v with
  | Return r => Return r
  | Throw _ => b v
  end.

Definition just (value : JsValue) : Validator JsValue := λ v,
  if negb (strict_equal v value) then throw_failed (template value) v
  else Return value.

(** The loop of [record] over the keys still to visit; [res] holds the
    assignments made so far. *)
Fixpoint record_loop {A} (validator : Validator A) (v : JsValue)
    (keys : list String.string) (res : list (String.string * A))
    : Outcome (list (String.string * A)) :=
  match keys with
  | [] => Return res
  | key :: keys' =>
      member ← get v key;
      a ← validator member;
      record_loop validator v keys' (res ++ [(key, a)])
  end.

Definition record {A} (validator : Validator A)
    : Validator (list (String.string * A)) := λ v,
  if negb (String.eqb (typeof v) "object") then throw_failed "object" v
  else record_loop validator v (keys_in v) [].

(** [v.map(validator)]. *)
Fixpoint map_items {A} (validator : Validator A) (items : list JsValue)
    : Outcome (list A) :=
  match items with
  | [] => Return []
  | item :: rest =>
      a ← validator item;
      others ← map_items validator rest;
      mret (a :: others)
  end.

Definition array {A} (validator : Validator A) : Validator (list A) := λ v,
  match v with
  | JArray items => map_items validator items
  | _ => throw_failed "array" v
  end.

(** The loop of [object] over [Object.keys(objValidator)]; [n] holds the
    assignments made so far.  The results of the fields are of one type
    here. *)
Fixpoint object_loop {A} (objValidator : list (String.string * Validator A))
    (v : JsValue) (n : list (String.string * A))
    : Outcome (list (String.string * A)) :=
  match objValidator with
  | [] => Return n
  | (key, validator) :: rest =>
      match member ← get v key; validator member with
      | Return a => object_loop rest v (n ++ [(key, a)])
      | Throw err =>
          Throw (ValidationError
                   ("Error in field " +:+ key +:+ ": " +:+ error_message err))
      end
  end.

Definition object {A} (objValidator : list (String.string * Validator A))
    : Validator (list (String.string * A)) := λ v,
  if negb (String.eqb (typeof v) "object") then throw_failed "object" v
  else object_loop objValidator v [].

(** [members.includes(s)]. *)
Definition includes (members : list String.string) (s : JsValue) : bool :=
  existsb (λ m, strict_equal (JString m) s) members.

Definition stringEnumeration (members : list String.string) : Validator JsValue := λ v,
  s ← string v;
  if includes members s then Return s
  else throw_failed (String.concat ", " members) v.

Definition objectId : Validator DBObjectId := map objectIdFromString string.

Record NumberValidationProps := mkProps {
  sign : option String.string;          (* ['positive'] or ['negative'] *)
  integer : option bool;
  range : option (float * float)        (* [from], [to] *)
}.

Definition numberAdv (props : NumberValidationProps) : Validator JsValue := λ v,
  n ← number v;
  match sign props with
  | Some which =>
      let sign := Math_sign (double_of n) in
      if String.eqb which "positive" then
        if (sign =? -1)%float then throw_failed "positive number" v else Return ()
      else if String.eqb which "negative" then
        if negb (sign =? -1)%float then throw_failed "negative number" v else Return ()
      else Return ()
  | None => Return ()
  end;;
  match integer props with
  | Some true =>
      if negb (Number_isInteger (double_of n)) then throw_failed "integer" v
      else Return ()
  | _ => Return ()
  end;;
  match range props with
  | Some (from, to) =>
      if (double_of n <? from)%float || (to <? double_of n)%float then
        throw_failed ("number between " +:+ template (JNumber from)
                      +:+ " and " +:+ template (JNumber to)) v
      else Return ()
  | None => Return ()
  end;;
  Return n.

Definition positiveInteger : Validator JsValue :=
  numberAdv (mkProps (Some "positive") (Some true) None).

Definition withDefault {A} (defaultValue : A) (validator : Validator A)
    : Validator A := λ v,
  if strict_equal v JUndefined || strict_equal v JNull then Return defaultValue
  else validator v.
End Validators.

(** One host, on which the validators can be run.  It knows the members
    of plain objects only: it reads [undefined] under every other key,
    and visits no key of an array. *)
Definition sample_toString (v : JsValue) : Outcome String.string :=
  match v with
  | JString s => Return s
  | JBoolean true => Return "true"
  | JBoolean false => Return "false"
  | JObject members =>
      if existsb (λ m, String.eqb m.1 "toString") members then Throw TypeError
      else Return "[object Object]"
  | _ => Return "?"
  end.

Definition sample_error_message (e : JsError) : String.string :=
  match e with
  | ValidationError message => message
  | TypeError => "Cannot read properties of undefined"
  end.

Definition sample_property (v : JsValue) (key : String.string) : JsValue :=
  match v with
  | JObject members =>
      default JUndefined ((λ found, found.2.2) <$> list_find (λ m, m.1 = key) members)
  | _ => JUndefined
  end.

Definition sample_keys (v : JsValue) : list String.string :=
  match v with
  | JObject members => fst <$> members
  | _ => []
  end.

Definition sample : Host := {|
  toString_of := sample_toString;
  template := λ v, match sample_toString v with Return s => s | Throw _ => "" end;
  error_toString := λ e, "Error: " +:+ sample_error_message e;
  error_message := sample_error_message;
  property := sample_property;
  enumerable_keys := sample_keys;
  Date := String.string;
  new_Date := λ v, match v with JString s => s | _ => "" end;
  DBObjectId := String.string;
  objectIdFromString := λ v, match v with JString s => Return s | _ => Throw TypeError end
|}.

End Validate.

(** * Properties *)

(** ** Loops and updates *)

Section Loops.
Context `{Collaborators}.

Lemma bind_run {S A B} (m : M S A) (k : A → M S B) (w : S) :
  (m ≫= k) w = match m w with
               | (Return a, w') => k a w'
               | (Throw e, w') => (Throw e, w')
               end.
Proof. reflexivity. Qed.

Lemma run_returns {S A} (m : M S A) (w : S) (a : A) :
  (m w).1 = Return a → m w = (Return a, (m w).2).
Proof. destruct (m w) as [o w']. simpl. by intros ->. Qed.

Lemma for_of_app {S A} (l1 l2 : list A) (body : A → M S unit) (w : S) :
  for_of (l1 ++ l2) body w = (for_of l1 body ;; for_of l2 body) w.
Proof.
  revert w. induction l1 as [|a l1 IH]; intros w; simpl.
  - reflexivity.
  - rewrite !bind_run. destruct (body a w) as [[[]|e] w1]; [|reflexivity].
    rewrite IH, bind_run. reflexivity.
Qed.

Lemma for_of_rewritten P body (winners : list nat) :
  updates_only P body → NoDup winners →
  ∀ w, ∃ w', for_of winners body w = (Return (), w')
    ∧ rand w' = rand w
    ∧ rewritten P winners (galaxy_stars w) (galaxy_stars w').
Proof.
  intros Hb. induction winners as [|r l IH]; intros Hnd w.
  - exists w. split; [reflexivity|]. split; [reflexivity|].
    split; [reflexivity|]. split; [reflexivity|].
    intros r s Hr. by apply elem_of_nil in Hr.
  - apply NoDup_cons in Hnd as [Hr Hnd].
    destruct (Hb r w) as (f & rs & Hrun & HP).
    destruct (IH Hnd (mkWorld (rand w) rs (alter f r (galaxy_stars w))))
      as (w' & Hloop & Hrand & Hlen & Hout & Hin).
    exists w'. simpl in *. split.
    { rewrite bind_run, Hrun. exact Hloop. }
    split; [exact Hrand|]. split; [|split].
    + rewrite Hlen. apply length_alter.
    + intros j Hj. apply not_elem_of_cons in Hj as [Hjr Hjl].
      rewrite (Hout j Hjl). by apply list_lookup_alter_ne.
    + intros j s Hj Hs. apply elem_of_cons in Hj as [->|Hj].
      * exists (f s). split; [|apply HP].
        rewrite (Hout r Hr), list_lookup_alter_eq, Hs. reflexivity.
      * apply (Hin j s Hj). rewrite list_lookup_alter_ne; [exact Hs|].
        intros ->. contradiction.
Qed.

(** [stars.filter(p)] yields each star that satisfies [p] once. *)
Lemma filter_stars_NoDup p stars : NoDup (filter_stars p stars).
Proof. apply NoDup_filter, NoDup_seq. Qed.

Lemma elem_of_filter_stars p stars r :
  r ∈ filter_stars p stars ↔ ∃ s, stars !! r = Some s ∧ p s = true.
Proof.
  unfold filter_stars. rewrite list_elem_of_filter, elem_of_seq. split.
  - intros [Hp _]. destruct (stars !! r) as [s|]; simpl in Hp; [|done].
    exists s. split; [done|]. by apply Is_true_true.
  - intros (s & Hs & Hp). rewrite Hs. simpl. split; [by apply Is_true_true|].
    apply lookup_lt_Some in Hs. lia.
Qed.

Lemma slice0_sublist {A} (a : list A) (e : Z) : Js.slice0 a e `sublist_of` a.
Proof. unfold Js.slice0. destruct (e <? 0)%Z; apply sublist_take. Qed.

Lemma slice0_length {A} (a : list A) (e : Z) :
  (0 ≤ e ≤ Z.of_nat (length a))%Z → length (Js.slice0 a e) = Z.to_nat e.
Proof.
  intros He. unfold Js.slice0. destruct (Z.ltb_spec e 0); [lia|].
  rewrite length_take. lia.
Qed.

Lemma slice0_all {A} (a : list A) (e : Z) :
  (Z.of_nat (length a) ≤ e)%Z → Js.slice0 a e = a.
Proof.
  intros He. unfold Js.slice0. destruct (Z.ltb_spec e 0); [lia|].
  apply take_ge. lia.
Qed.
End Loops.

(** ** The shape of a single-star pass *)

Section SingleStarPasses.
Context `{Collaborators}.

Lemma set_naturalResources_same s : set_naturalResources (naturalResources s) s = s.
Proof. by destruct s. Qed.

Lemma winners_NoDup flag pc p w : shuffle_permutes → NoDup (winners flag pc p w).
Proof.
  intros Hsh. eapply sublist_NoDup; [|apply slice0_sublist].
  rewrite (Hsh nat). apply filter_stars_NoDup.
Qed.

Lemma winners_applicable flag pc p w r :
  shuffle_permutes → r ∈ winners flag pc p w →
  ∃ s, galaxy_stars w !! r = Some s ∧ applicable flag s = true.
Proof.
  intros Hsh Hr. apply elem_of_filter_stars. rewrite <- (Hsh nat (rand w)).
  eapply sublist_subseteq; [apply slice0_sublist|exact Hr].
Qed.

Lemma winners_length flag pc p w :
  shuffle_permutes →
  let c := featureCount (length (galaxy_stars w)) pc p in
  (0 ≤ c ≤ Z.of_nat (length (filter_stars (applicable flag) (galaxy_stars w))))%Z →
  length (winners flag pc p w) = Z.to_nat c.
Proof.
  intros Hsh c Hc. apply slice0_length. by rewrite (Hsh nat).
Qed.

Lemma single_star_pass_run flag pc p body P w :
  shuffle_permutes → updates_only P body →
  ∃ w', single_star_pass flag pc p body w = (Return (), w')
    ∧ rand w' = (shuffle nat (rand w) (filter_stars (applicable flag) (galaxy_stars w))).2
    ∧ rewritten P (winners flag pc p w) (galaxy_stars w) (galaxy_stars w').
Proof.
  intros Hsh Hb. unfold single_star_pass.
  rewrite bind_run. simpl. rewrite bind_run. unfold shuffle_with_rand. simpl.
  pose proof (winners_NoDup flag pc p w Hsh) as Hnd. unfold winners in *.
  destruct (shuffle nat (rand w) (filter_stars (applicable flag) (galaxy_stars w)))
    as [a r'] eqn:Ea. simpl in *.
  destruct (for_of_rewritten P body _ Hb Hnd (mkWorld r' (randomService w) (galaxy_stars w)))
    as (w' & Hrun & Hrand & Hrw).
  exists w'. done.
Qed.

(** The six loop bodies. *)
Lemma gates_body :
  updates_only (feature_update set_warpGate) (λ star, write star (set_warpGate true)).
Proof.
  intros r w. exists (set_warpGate true), (randomService w). split; [reflexivity|].
  intros s. exists (naturalResources s). by destruct s.
Qed.

Lemma pulsars_body :
  updates_only (feature_update set_isPulsar) (λ star, write star (set_isPulsar true)).
Proof.
  intros r w. exists (set_isPulsar true), (randomService w). split; [reflexivity|].
  intros s. exists (naturalResources s). by destruct s.
Qed.

Lemma blackHoles_body :
  updates_only (λ s s', s' = collapsed s) (λ blackHoleStar,
    write blackHoleStar (set_isBlackHole true);;
    write blackHoleStar (λ s, set_naturalResources
      (set_economy (Js.ceil_times_0_2 (economy (naturalResources s))) (naturalResources s)) s);;
    write blackHoleStar (λ s, set_naturalResources
      (set_industry (Js.ceil_times_0_2 (industry (naturalResources s))) (naturalResources s)) s);;
    write blackHoleStar (λ s, set_naturalResources
      (set_science (Js.ceil_times_0_2 (science (naturalResources s))) (naturalResources s)) s)).
Proof.
  intros r w. exists collapsed, (randomService w). split; [|done].
  unfold write, mbind, M_bind. simpl. f_equal. f_equal.
  rewrite !list_alter_alter_eq. apply list_alter_ext; [|done].
  intros s _. by destruct s as [? ? ? ? []].
Qed.

Lemma collapsed_feature_update s : feature_update set_isBlackHole s (collapsed s).
Proof. by eexists. Qed.
End SingleStarPasses.

(** ** The six single-star passes *)

Section SixPasses.
Context `{Collaborators}.

Lemma nebulas_body game :
  updates_only (feature_update set_isNebula) (λ nebulaStar,
    write nebulaStar (set_isNebula true);;
    if isSplitResources game then
      let minResources := (Js.of_Z (maxNaturalResources game) * 1.5)%float in
      let maxResources := (Js.of_Z (maxNaturalResources game) * 3)%float in
      v ← randomService_getRandomNumberBetween minResources maxResources;
      write nebulaStar (λ s, set_naturalResources (set_science v (naturalResources s)) s)
    else mret ()).
Proof.
  intros r w. unfold write, randomService_getRandomNumberBetween, mbind, M_bind.
  simpl. destruct (isSplitResources game).
  - destruct (getRandomNumberBetween _ _ _) as [v rs] eqn:E. simpl.
    eexists _, rs. rewrite list_alter_alter_eq. split; [reflexivity|].
    intros s. simpl. by eexists.
  - exists (set_isNebula true), (randomService w). split; [reflexivity|].
    intros s. exists (naturalResources s). by destruct s.
Qed.

Lemma asteroidFields_body game :
  updates_only (feature_update set_isAsteroidField) (λ asteroidFieldStar,
    write asteroidFieldStar (set_isAsteroidField true);;
    if isSplitResources game then
      let minResources := (Js.of_Z (maxNaturalResources game) * 1.5)%float in
      let maxResources := (Js.of_Z (maxNaturalResources game) * 3)%float in
      v ← randomService_getRandomNumberBetween minResources maxResources;
      write asteroidFieldStar (λ s, set_naturalResources (set_economy v (naturalResources s)) s)
    else mret ()).
Proof.
  intros r w. unfold write, randomService_getRandomNumberBetween, mbind, M_bind.
  simpl. destruct (isSplitResources game).
  - destruct (getRandomNumberBetween _ _ _) as [v rs] eqn:E. simpl.
    eexists _, rs. rewrite list_alter_alter_eq. split; [reflexivity|].
    intros s. simpl. by eexists.
  - exists (set_isAsteroidField true), (randomService w). split; [reflexivity|].
    intros s. exists (naturalResources s). by destruct s.
Qed.

Lemma binaryStars_body game :
  let minResources := (Js.of_Z (maxNaturalResources game) * 1.5)%float in
  let maxResources := (Js.of_Z (maxNaturalResources game) * 3)%float in
  updates_only (feature_update set_isBinaryStar) (λ binaryStar,
    write binaryStar (set_isBinaryStar true);;
    if isSplitResources game then
      v ← randomService_getRandomNumberBetween minResources maxResources;
      write binaryStar (λ s, set_naturalResources (set_industry v (naturalResources s)) s)
    else
      resources ← randomService_getRandomNumberBetween minResources maxResources;
      write binaryStar (set_naturalResources (mkNaturalResources resources resources resources))).
Proof.
  intros mn mx r w. unfold write, randomService_getRandomNumberBetween, mbind, M_bind.
  simpl. destruct (isSplitResources game);
    destruct (getRandomNumberBetween _ _ _) as [v rs] eqn:E; simpl;
    eexists _, rs; rewrite list_alter_alter_eq; (split; [reflexivity|]);
    intros s; simpl; by eexists.
Qed.

(** Every single-star pass has the common shape, with a body that only
    raises its flag and possibly overwrites natural resources. *)
Lemma pass_shape f game pc p :
  ∃ body, pass_of f game pc p = single_star_pass (flag_of f) pc p body
          ∧ updates_only (feature_update (raise_of f)) body.
Proof.
  destruct f; eexists; (split; [reflexivity|]).
  - apply gates_body.
  - apply nebulas_body.
  - apply asteroidFields_body.
  - apply binaryStars_body.
  - intros r w. destruct (blackHoles_body r w) as (g & rs & Hrun & Hg).
    exists g, rs. split; [exact Hrun|]. intros s. rewrite Hg.
    apply collapsed_feature_update.
  - apply pulsars_body.
Qed.

Lemma pass_run f game pc p w :
  shuffle_permutes →
  ∃ w', pass_of f game pc p w = (Return (), w')
    ∧ rewritten (feature_update (raise_of f)) (winners (flag_of f) pc p w)
        (galaxy_stars w) (galaxy_stars w').
Proof.
  intros Hsh. destruct (pass_shape f game pc p) as (body & -> & Hb).
  destruct (single_star_pass_run (flag_of f) pc p body _ w Hsh Hb)
    as (w' & Hrun & _ & Hrw).
  by exists w'.
Qed.

(** What a feature update keeps and what it sets. *)
Lemma feature_update_flag f s s' :
  feature_update (raise_of f) s s' → flag_of f s' = true.
Proof. intros [nr ->]. by destruct f. Qed.

Lemma feature_update_id f s s' : feature_update (raise_of f) s s' → _id s' = _id s.
Proof. intros [nr ->]. by destruct f. Qed.

Lemma feature_update_wormHole f s s' :
  feature_update (raise_of f) s s' → wormHoleToStarId s' = wormHoleToStarId s.
Proof. intros [nr ->]. by destruct f. Qed.
End SixPasses.

(** ** The sample collaborators honour the contracts *)

Lemma fisher_yates_permutes {A} (n : nat) (s : Z) (a : list A) :
  (Sample.fisher_yates n s a).1 ≡ₚ a.
Proof.
  revert s a. induction n as [|n IH]; intros s a; simpl; [done|].
  destruct (a !! _) as [v|] eqn:E; [|done].
  specialize (IH (Sample.lcg s) (delete (Z.to_nat ((Sample.lcg s / 65536)
    `mod` Z.of_nat (length a))%Z) a)).
  destruct (Sample.fisher_yates n _ _) as [rest s'']. simpl in *.
  rewrite IH. symmetry. by apply delete_Permutation.
Qed.

Lemma sample_shuffle_permutes : @shuffle_permutes Sample.sample.
Proof. intros A r a. apply fisher_yates_permutes. Qed.

(** ** Quotas *)

Section Quotas.
Context `{Collaborators}.

Lemma marked_NoDup flag before after : NoDup (marked flag before after).
Proof. apply NoDup_filter, NoDup_seq. Qed.

Lemma elem_of_marked flag before after r :
  r ∈ marked flag before after ↔
  from_option flag false (before !! r) = false
  ∧ from_option flag false (after !! r) = true
  ∧ r < length before.
Proof.
  unfold marked. rewrite list_elem_of_filter, elem_of_seq. intuition lia.
Qed.

(** The stars marked by a pass are the stars it picked. *)
Lemma marked_winners f ws before after :
  rewritten (feature_update (raise_of f)) ws before after →
  NoDup ws →
  (∀ r, r ∈ ws → ∃ s, before !! r = Some s ∧ flag_of f s = false) →
  marked (flag_of f) before after ≡ₚ ws.
Proof.
  intros (Hlen & Hout & Hin) Hnd Hws.
  apply NoDup_Permutation; [apply marked_NoDup|exact Hnd|].
  intros r. rewrite elem_of_marked. split.
  - intros (Hb & Ha & _). destruct (decide (r ∈ ws)) as [|Hr]; [done|].
    rewrite (Hout r Hr) in Ha. congruence.
  - intros Hr. destruct (Hws r Hr) as (s & Hs & Hflag).
    destruct (Hin r s Hr Hs) as (s' & Hs' & Hup).
    rewrite Hs, Hs'. simpl. split; [done|]. split.
    + by eapply feature_update_flag.
    + by eapply lookup_lt_Some.
Qed.

Lemma applicable_unflagged flag s : applicable flag s = true → flag s = false.
Proof.
  unfold applicable. destruct (flag s); [|done].
  rewrite andb_false_r. done.
Qed.

Lemma applicable_not_home flag s : applicable flag s = true → homeStar s = false.
Proof. unfold applicable. by destruct (homeStar s). Qed.

Lemma pass_marks f game pc p w :
  shuffle_permutes →
  ∃ w', pass_of f game pc p w = (Return (), w')
    ∧ marked (flag_of f) (galaxy_stars w) (galaxy_stars w')
        ≡ₚ winners (flag_of f) pc p w.
Proof.
  intros Hsh. destruct (pass_run f game pc p w Hsh) as (w' & Hrun & Hrw).
  exists w'. split; [exact Hrun|].
  apply marked_winners; [exact Hrw|by apply winners_NoDup|].
  intros r Hr. destruct (winners_applicable _ _ _ _ _ Hsh Hr) as (s & Hs & Ha).
  exists s. split; [exact Hs|]. by eapply applicable_unflagged.
Qed.

(** C2 (amended).  Every single-star pass returns normally and marks
    exactly as many stars as the count it computes,
    [Math.floor((stars.length - playerCount) / 100 * percentage)],
    whenever that count is not negative and that many applicable stars
    (not home, not yet carrying the feature, not dead) exist; with fewer
    applicable stars it marks them all.  For 100 stars, 4 players and 10
    percent the count is 9. *)
Theorem single_star_pass_quota (f : Feature) (game : Game) (pc p : Z) (w : World) :
  shuffle_permutes →
  let c := featureCount (length (galaxy_stars w)) pc p in
  (0 ≤ c)%Z →
  ∃ w', pass_of f game pc p w = (Return (), w')
    ∧ length (marked (flag_of f) (galaxy_stars w) (galaxy_stars w'))
      = Z.to_nat c `min`
        length (filter_stars (applicable (flag_of f)) (galaxy_stars w))
    ∧ featureCount 100 4 10 = 9%Z.
Proof.
  intros Hsh c Hc. destruct (pass_marks f game pc p w Hsh) as (w' & Hrun & Hm).
  exists w'. split; [exact Hrun|]. split; [|by vm_compute].
  rewrite Hm. unfold winners, Js.slice0. fold c.
  destruct (Z.ltb_spec c 0); [lia|].
  rewrite length_take. by rewrite (Hsh nat).
Qed.
End Quotas.

Section QuotaExamples.
#[local] Existing Instance Sample.sample.

(** C2, as stated, fails: with 4 stars and 2 players the eligible pool
    size is 2, and 50 percent of it is 1, yet the warp-gate pass marks no
    star, because both stars outside the home stars are dead. *)
Lemma single_star_pass_quota_counterexample :
  let after := (_generateGates 2 50 two_dead).2 in
  length (marked warpGate (galaxy_stars two_dead) (galaxy_stars after)) = 0
  ∧ Z.to_nat ((4 - 2) * 50 / 100) = 1.
Proof. by vm_compute. Qed.

(** The scenario of 100 stars, 4 of them home stars, 4 players and 10
    percent warp gates: exactly 9 stars become warp gates. *)
Lemma single_star_pass_quota_witness :
  ∃ w', pass_of WarpGates (Sample.quiet "circular" 4) 4 10
          (Sample.world 1 1 (galaxy 4 100)) = (Return (), w')
    ∧ length (marked warpGate (galaxy 4 100) (galaxy_stars w')) = 9.
Proof.
  destruct (single_star_pass_quota WarpGates (Sample.quiet "circular" 4) 4 10
              (Sample.world 1 1 (galaxy 4 100)) sample_shuffle_permutes)
    as (w' & Hrun & Hlen & _); [by vm_compute|].
  exists w'. split; [exact Hrun|]. etrans; [exact Hlen|]. by vm_compute.
Defined.
End QuotaExamples.

(** ** The wormhole pass *)

Section WormHoles.
Context `{Collaborators}.

Lemma generateWormHoles_run game pc p w :
  _generateWormHoles game pc p w =
  for_upto (wormHolePairCount (length (galaxy_stars w)) pc p)
    (pair_body (wormHoleStars pc p w))
    (mkWorld (shuffle nat (rand w) (filter_stars (applicable paired) (galaxy_stars w))).2
             (randomService w) (galaxy_stars w)).
Proof.
  unfold _generateWormHoles, wormHoleStars.
  rewrite bind_run. simpl. rewrite bind_run. unfold shuffle_with_rand.
  change (λ s, negb (homeStar s) && negb (Js.truthy (wormHoleToStarId s))
               && negb (isDeadStar s)) with (applicable paired).
  by destruct (shuffle nat (rand w) _) as [a r'].
Qed.

Lemma pair_body_ok ws i a b sa sb w :
  ws !! (i * 2) = Some a → ws !! (i * 2 + 1) = Some b →
  galaxy_stars w !! a = Some sa → galaxy_stars w !! b = Some sb →
  pair_body ws i w
  = (Return (), mkWorld (rand w) (randomService w) (pair_up a b sa sb (galaxy_stars w))).
Proof.
  intros Ha Hb Hsa Hsb. unfold pair_body, pair_up. rewrite Ha, Hb.
  unfold read, write, mbind, M_bind. simpl. rewrite Hsb. simpl.
  destruct (decide (a = b)) as [->|Hab].
  - rewrite list_lookup_alter_eq, Hsa. simpl. congruence.
  - rewrite list_lookup_alter_eq, Hsa. done.
Qed.

Lemma pair_body_throw ws i w :
  ws !! (i * 2 + 1) = None → pair_body ws i w = (Throw TypeError, w).
Proof.
  intros Hb. unfold pair_body. rewrite Hb. by destruct (ws !! (i * 2)).
Qed.

Lemma distinct_ids_inj st i j si sj :
  distinct_ids st → st !! i = Some si → st !! j = Some sj →
  _id si = _id sj → i = j.
Proof.
  intros Hnd Hi Hj Hid. eapply (NoDup_lookup _ i j (_id si) Hnd);
    rewrite list_lookup_fmap; [by rewrite Hi|by rewrite Hj, Hid].
Qed.

Lemma pair_up_ids a b sa sb st :
  _id <$> pair_up a b sa sb st = _id <$> st.
Proof.
  unfold pair_up. erewrite !(list_fmap_alter _id _ id).
  - by rewrite !list_alter_id.
  - by apply Forall_forall.
  - by apply Forall_forall.
Qed.

(** One iteration keeps the pairing mutual when it joins two different
    stars that were unpaired. *)
Lemma pair_up_mutual a b sa sb st :
  a ≠ b → distinct_ids st →
  st !! a = Some sa → st !! b = Some sb →
  wormHoleToStarId sa = None → wormHoleToStarId sb = None →
  wormholes_mutual st → wormholes_mutual (pair_up a b sa sb st).
Proof.
  intros Hab Hnd Ha Hb Hwa Hwb Hm p q sp sq Hp Hq Hw.
  unfold pair_up in Hp, Hq.
  assert (Hlook : ∀ r s, alter (set_wormHoleToStarId (Some (_id sa))) b
      (alter (set_wormHoleToStarId (Some (_id sb))) a st) !! r = Some s →
      (r = a ∧ s = set_wormHoleToStarId (Some (_id sb)) sa)
      ∨ (r = b ∧ s = set_wormHoleToStarId (Some (_id sa)) sb)
      ∨ (r ≠ a ∧ r ≠ b ∧ st !! r = Some s)).
  { intros r s Hr. destruct (decide (r = b)) as [->|Hrb].
    - rewrite list_lookup_alter_eq, list_lookup_alter_ne, Hb in Hr by done.
      right; left. split; [done|]. by inversion Hr.
    - rewrite list_lookup_alter_ne in Hr by done.
      destruct (decide (r = a)) as [->|Hra].
      + rewrite list_lookup_alter_eq, Ha in Hr. left. split; [done|]. by inversion Hr.
      + rewrite list_lookup_alter_ne in Hr by done. right; right. done. }
  destruct (Hlook p sp Hp) as [[-> ->]|[[-> ->]|(Hpa & Hpb & Hp0)]];
  destruct (Hlook q sq Hq) as [[-> ->]|[[-> ->]|(Hqa & Hqb & Hq0)]];
    simpl in *.
  - inversion Hw as [Hid]. exfalso. apply Hab. symmetry.
    by eapply (distinct_ids_inj st).
  - done.
  - inversion Hw as [Hid]. exfalso. apply Hqb. symmetry.
    by eapply (distinct_ids_inj st).
  - split; [done|]. done.
  - inversion Hw as [Hid]. exfalso. apply Hab.
    by eapply (distinct_ids_inj st).
  - inversion Hw as [Hid]. exfalso. apply Hqa. symmetry.
    by eapply (distinct_ids_inj st).
  - destruct (Hm p a sp sa Hp0 Ha Hw) as [Hback _]. congruence.
  - destruct (Hm p b sp sb Hp0 Hb Hw) as [Hback _]. congruence.
  - by apply (Hm p q sp sq).
Qed.
End WormHoles.

Section PairingLoop.
Context `{Collaborators}.

Lemma set_wormHoleToStarId_same s : set_wormHoleToStarId (wormHoleToStarId s) s = s.
Proof. by destruct s. Qed.

Lemma not_in_take_of_lookup (ws : list nat) k j r :
  NoDup ws → ws !! j = Some r → k ≤ j → r ∉ take k ws.
Proof.
  intros Hnd Hj Hk Hin. apply elem_of_take in Hin as (i & Hi & Hlt).
  pose proof (NoDup_lookup _ _ _ _ Hnd Hi Hj). lia.
Qed.

Lemma pairing_loop (ws : list nat) (st0 : list Star) rnd rs :
  NoDup ws →
  (∀ r, r ∈ ws → ∃ s, st0 !! r = Some s ∧ wormHoleToStarId s = None) →
  ∀ n, 2 * n ≤ length ws →
  ∃ st, for_of (seq 0 n) (pair_body ws) (mkWorld rnd rs st0)
        = (Return (), mkWorld rnd rs st)
    ∧ paired_off ws st0 n st.
Proof.
  intros Hnd Hws. induction n as [|n IH]; intros Hn.
  { exists st0. split; [done|].
    split; [done|]. split; [done|]. split; [done|]. split; [|split; [|done]].
    - intros r Hr. simpl in Hr. by apply elem_of_nil in Hr.
    - intros r s Hs. exists s. split; [done|].
      by rewrite set_wormHoleToStarId_same. }
  destruct IH as (st & Hrun & Hlen & Hids & Hout & Hin & Hshape & Hmut); [lia|].
  destruct (lookup_lt_is_Some_2 ws (n * 2)) as [a Ha]; [lia|].
  destruct (lookup_lt_is_Some_2 ws (n * 2 + 1)) as [b Hb]; [lia|].
  assert (a ≠ b) as Hab.
  { intros ->. pose proof (NoDup_lookup _ _ _ _ Hnd Ha Hb). lia. }
  assert (a ∉ take (2 * n) ws) as Hafresh
    by (eapply not_in_take_of_lookup; [done|exact Ha|lia]).
  assert (b ∉ take (2 * n) ws) as Hbfresh
    by (eapply not_in_take_of_lookup; [done|exact Hb|lia]).
  destruct (Hws a) as (sa & Hsa & Hwa); [by eapply list_elem_of_lookup_2|].
  destruct (Hws b) as (sb & Hsb & Hwb); [by eapply list_elem_of_lookup_2|].
  assert (st !! a = Some sa) as Hsta by (by rewrite Hout).
  assert (st !! b = Some sb) as Hstb by (by rewrite Hout).
  assert (take (2 * S n) ws = take (2 * n) ws ++ [a; b]) as Htake.
  { replace (2 * S n) with (S (S (2 * n))) by lia.
    rewrite (take_S_r _ _ b) by (rewrite <- Hb; f_equal; lia).
    rewrite (take_S_r _ _ a) by (rewrite <- Ha; f_equal; lia).
    by rewrite <- app_assoc. }
  exists (pair_up a b sa sb st). split.
  { rewrite seq_S, for_of_app, bind_run, Hrun. simpl.
    rewrite bind_run, (pair_body_ok ws n a b sa sb); done. }
  assert (∀ r, r ≠ a → r ≠ b → pair_up a b sa sb st !! r = st !! r) as Hother.
  { intros r Hra Hrb. unfold pair_up. by rewrite !list_lookup_alter_ne. }
  assert (pair_up a b sa sb st !! a
          = Some (set_wormHoleToStarId (Some (_id sb)) sa)) as Hnewa.
  { unfold pair_up. rewrite list_lookup_alter_ne by done.
    by rewrite list_lookup_alter_eq, Hsta. }
  assert (pair_up a b sa sb st !! b
          = Some (set_wormHoleToStarId (Some (_id sa)) sb)) as Hnewb.
  { unfold pair_up. rewrite list_lookup_alter_eq.
    by rewrite list_lookup_alter_ne, Hstb. }
  split; [|split; [|split; [|split; [|split]]]].
  - unfold pair_up. by rewrite !length_alter.
  - by rewrite pair_up_ids.
  - intros r Hr. rewrite Htake in Hr.
    apply not_elem_of_app in Hr as [Hr Hab'].
    apply not_elem_of_cons in Hab' as [Hra Hrb].
    apply not_elem_of_cons in Hrb as [Hrb _].
    rewrite Hother by done. by apply Hout.
  - intros r Hr. rewrite Htake in Hr. apply elem_of_app in Hr as [Hr|Hr].
    + rewrite Hother; [by apply Hin|..]; intros ->; contradiction.
    + apply elem_of_cons in Hr as [->|Hr]; [by eexists|].
      apply list_elem_of_singleton in Hr as ->. by eexists.
  - intros r s Hs. destruct (decide (r = a)) as [->|Hra].
    { rewrite Hnewa in Hs. inversion Hs. by exists sa. }
    destruct (decide (r = b)) as [->|Hrb].
    { rewrite Hnewb in Hs. inversion Hs. by exists sb. }
    rewrite Hother in Hs by done. by apply Hshape.
  - intros Hd Hm. apply pair_up_mutual; try done.
    + unfold distinct_ids. by rewrite Hids.
    + by apply Hmut.
Qed.
End PairingLoop.

Section WormHolePass.
Context `{Collaborators}.

Lemma wormHoleStars_NoDup pc p w : shuffle_permutes → NoDup (wormHoleStars pc p w).
Proof.
  intros Hsh. eapply sublist_NoDup; [|apply slice0_sublist].
  rewrite (Hsh nat). apply filter_stars_NoDup.
Qed.

Lemma wormHoleStars_applicable pc p w r :
  shuffle_permutes → r ∈ wormHoleStars pc p w →
  ∃ s, galaxy_stars w !! r = Some s ∧ applicable paired s = true.
Proof.
  intros Hsh Hr. apply elem_of_filter_stars. rewrite <- (Hsh nat (rand w)).
  eapply sublist_subseteq; [apply slice0_sublist|exact Hr].
Qed.

Lemma unpaired_None s : paired s = false → wormHoleToStarId s = None.
Proof. unfold paired. by destruct (wormHoleToStarId s). Qed.

Lemma wormHoleStars_unpaired pc p w r :
  shuffle_permutes → r ∈ wormHoleStars pc p w →
  ∃ s, galaxy_stars w !! r = Some s ∧ wormHoleToStarId s = None.
Proof.
  intros Hsh Hr. destruct (wormHoleStars_applicable pc p w r Hsh Hr) as (s & Hs & Ha).
  exists s. split; [done|]. by apply unpaired_None, applicable_unflagged.
Qed.

(** The wormhole pass, in full: the loop pairs off the winner list from
    the left; it returns after all its iterations when the applicable
    stars suffice for them, and throws a [TypeError] otherwise. *)
Lemma generateWormHoles_result game pc p w :
  shuffle_permutes →
  let c := wormHolePairCount (length (galaxy_stars w)) pc p in
  let n := length (filter_stars (applicable paired) (galaxy_stars w)) in
  ∃ o k st,
    _generateWormHoles game pc p w
    = (o, mkWorld (shuffle nat (rand w) (filter_stars (applicable paired) (galaxy_stars w))).2
            (randomService w) st)
    ∧ paired_off (wormHoleStars pc p w) (galaxy_stars w) k st
    ∧ 2 * k ≤ length (wormHoleStars pc p w)
    ∧ ((2 * c ≤ Z.of_nat n)%Z → o = Return () ∧ k = Z.to_nat c)
    ∧ ((Z.of_nat n < 2 * c)%Z →
         o = Throw TypeError ∧ (Z.of_nat k < c)%Z
         ∧ wormHoleStars pc p w !! (k * 2 + 1) = None).
Proof.
  intros Hsh c n. rewrite generateWormHoles_run. fold c.
  pose proof (wormHoleStars_NoDup pc p w Hsh) as Hnd.
  pose proof (λ r, wormHoleStars_unpaired pc p w r Hsh) as Hws.
  assert (length (shuffle nat (rand w)
            (filter_stars (applicable paired) (galaxy_stars w))).1 = n) as Hlen
    by (by rewrite (Hsh nat)).
  set (r' := (shuffle nat (rand w) _).2).
  destruct (Z.le_gt_cases (2 * c) (Z.of_nat n)) as [Hok|Hshort].
  - (* enough applicable stars *)
    assert (2 * Z.to_nat c ≤ length (wormHoleStars pc p w)) as Hn.
    { unfold wormHoleStars. fold c. destruct (Z.le_gt_cases 0 c).
      - rewrite slice0_length; lia.
      - lia. }
    destruct (pairing_loop _ (galaxy_stars w) r' (randomService w) Hnd Hws
                (Z.to_nat c) Hn) as (st & Hrun & Hoff).
    exists (Return ()), (Z.to_nat c), st. unfold for_upto.
    split; [exact Hrun|]. split; [exact Hoff|]. split; [exact Hn|].
    split; [done|lia].
  - (* too few: the loop runs off the end of the winner list *)
    assert (wormHoleStars pc p w
            = (shuffle nat (rand w) (filter_stars (applicable paired) (galaxy_stars w))).1)
      as Hall by (unfold wormHoleStars; fold c; apply slice0_all; lia).
    assert (length (wormHoleStars pc p w) = n) as HL by (by rewrite Hall).
    set (k := n `div` 2).
    assert (2 * k ≤ n ∧ n < 2 * k + 2) as [Hk1 Hk2].
    { unfold k. pose proof (Nat.div_mod_eq n 2).
      pose proof (Nat.mod_upper_bound n 2). lia. }
    destruct (pairing_loop _ (galaxy_stars w) r' (randomService w) Hnd Hws k)
      as (st & Hrun & Hoff); [lia|].
    assert (wormHoleStars pc p w !! (k * 2 + 1) = None) as Hpast
      by (apply lookup_ge_None; lia).
    exists (Throw TypeError), k, st. split; [|split; [exact Hoff|split; [lia|]]].
    + unfold for_upto.
      replace (Z.to_nat c) with (k + S (Z.to_nat c - S k)) by lia.
      rewrite seq_app, for_of_app, bind_run, Hrun. simpl.
      by rewrite bind_run, pair_body_throw.
    + split; [lia|]. intros _. split; [done|]. split; [lia|done].
Qed.
End WormHolePass.

Section WormHoleClaims.
Context `{Collaborators}.

(** C10.  The pairing loop of the wormhole pass is safe exactly when the
    applicable stars (not home, not already paired, not dead) number at
    least twice the pair count: then every index it reads lies inside the
    sliced winner list and the pass returns; with fewer applicable stars
    some iteration reads past the end of that list and the pass throws
    the [TypeError] of a property access on [undefined]. *)
Theorem wormHole_loop_safety (game : Game) (pc p : Z) (w : World) :
  shuffle_permutes →
  let c := wormHolePairCount (length (galaxy_stars w)) pc p in
  let n := length (filter_stars (applicable paired) (galaxy_stars w)) in
  ((2 * c ≤ Z.of_nat n)%Z →
     (∃ w', _generateWormHoles game pc p w = (Return (), w'))
     ∧ ∀ i, (Z.of_nat i < c)%Z →
         is_Some (wormHoleStars pc p w !! (i * 2))
         ∧ is_Some (wormHoleStars pc p w !! (i * 2 + 1)))
  ∧ ((Z.of_nat n < 2 * c)%Z →
     (∃ w', _generateWormHoles game pc p w = (Throw TypeError, w'))
     ∧ ∃ i, (Z.of_nat i < c)%Z ∧ wormHoleStars pc p w !! (i * 2 + 1) = None).
Proof.
  intros Hsh c n.
  destruct (generateWormHoles_result game pc p w Hsh)
    as (o & k & st & Hrun & _ & Hk & Hok & Hshort).
  fold c n in Hok, Hshort. split.
  - intros Hc. destruct (Hok Hc) as [-> ->]. split; [by eexists|].
    intros i Hi. split; apply lookup_lt_is_Some_2; lia.
  - intros Hc. destruct (Hshort Hc) as (-> & Hkc & Hpast).
    split; [by eexists|]. by exists k.
Qed.

(** C3 (amended).  The wormhole pass computes its pair count as
    [Math.floor((stars.length - playerCount) / 2 / 100 * percentage)]:
    half the single-star quota.  When that count is not negative and
    twice as many applicable stars exist, the pass returns normally and
    gives a wormhole to exactly twice that many stars that had none.  For
    100 stars, 4 players and 10 percent the count is 4 pairs. *)
Theorem wormHole_pass_quota (game : Game) (pc p : Z) (w : World) :
  shuffle_permutes →
  let c := wormHolePairCount (length (galaxy_stars w)) pc p in
  let n := length (filter_stars (applicable paired) (galaxy_stars w)) in
  (0 ≤ c)%Z → (2 * c ≤ Z.of_nat n)%Z →
  ∃ w', _generateWormHoles game pc p w = (Return (), w')
    ∧ length (marked paired (galaxy_stars w) (galaxy_stars w')) = 2 * Z.to_nat c
    ∧ wormHolePairCount 100 4 10 = 4%Z.
Proof.
  intros Hsh c n Hc0 Hc.
  destruct (generateWormHoles_result game pc p w Hsh)
    as (o & k & st & Hrun & Hoff & Hk & Hok & _).
  fold c n in Hok. destruct (Hok Hc) as [-> ->].
  eexists. split; [exact Hrun|]. split; [|by vm_compute]. cbn [galaxy_stars].
  assert (length (wormHoleStars pc p w) = 2 * Z.to_nat c) as HL.
  { unfold wormHoleStars. fold c. rewrite slice0_length; [lia|].
    rewrite (Hsh nat). fold n. lia. }
  destruct Hoff as (Hlen & _ & Hout & Hin & _ & _).
  rewrite <- HL in Hout, Hin. rewrite firstn_all in Hout, Hin.
  rewrite <- HL. apply Permutation_length.
  apply NoDup_Permutation; [apply marked_NoDup|by apply wormHoleStars_NoDup|].
  intros r. rewrite elem_of_marked. split.
  - intros (Hb & Ha & _).
    destruct (decide (r ∈ wormHoleStars pc p w)) as [|Hr]; [done|].
    rewrite (Hout r Hr) in Ha. congruence.
  - intros Hr. destruct (wormHoleStars_unpaired pc p w r Hsh Hr) as (s & Hs & Hw).
    destruct (Hin r Hr) as (s' & Hs' & [v Hv]).
    rewrite Hs, Hs'. simpl. unfold paired. rewrite Hw, Hv.
    split; [done|]. split; [done|]. by eapply lookup_lt_Some.
Qed.
End WormHoleClaims.

Section WormHoleExamples.
#[local] Existing Instance Sample.sample.

(** C3, as stated, fails: with 6 stars and 2 players the eligible pool
    size is 4; 50 percent of it would be 2 pairs, 4 stars; the pass
    makes 1 pair, 2 stars. *)
Lemma wormHole_pass_quota_counterexample :
  let before := Sample.world 1 1 (galaxy 2 6) in
  let after := (_generateWormHoles (Sample.quiet "circular" 2) 2 50 before).2 in
  length (marked paired (galaxy_stars before) (galaxy_stars after)) = 2
  ∧ 2 * Z.to_nat ((6 - 2) * 50 / 100) = 4
  ∧ length (filter_stars (applicable paired) (galaxy_stars before)) = 4.
Proof. by vm_compute. Qed.

(** The scenario of 100 stars, 4 of them home stars, 4 players and 10
    percent wormholes: 4 pairs, 8 stars. *)
Lemma wormHole_pass_quota_witness :
  ∃ w', _generateWormHoles (Sample.quiet "circular" 4) 4 10
          (Sample.world 1 1 (galaxy 4 100)) = (Return (), w')
    ∧ length (marked paired (galaxy 4 100) (galaxy_stars w')) = 8.
Proof.
  destruct (wormHole_pass_quota (Sample.quiet "circular" 4) 4 10
              (Sample.world 1 1 (galaxy 4 100)) sample_shuffle_permutes)
    as (w' & Hrun & Hlen & _); [by vm_compute..|].
  exists w'. split; [exact Hrun|]. etrans; [exact Hlen|]. by vm_compute.
Defined.

(** The safe case at a galaxy of 6 stars, 2 of them home stars, with 50
    percent wormholes: 1 pair wanted, 4 applicable stars. *)
Lemma wormHole_loop_safety_witness :
  (∃ w', _generateWormHoles (Sample.quiet "circular" 2) 2 50
           (Sample.world 1 1 (galaxy 2 6)) = (Return (), w'))
  ∧ ∀ i, (Z.of_nat i < wormHolePairCount (length (galaxy 2 6)) 2 50)%Z →
      is_Some (wormHoleStars 2 50 (Sample.world 1 1 (galaxy 2 6)) !! (i * 2))
      ∧ is_Some (wormHoleStars 2 50 (Sample.world 1 1 (galaxy 2 6)) !! (i * 2 + 1)).
Proof.
  apply (wormHole_loop_safety (Sample.quiet "circular" 2) 2 50
           (Sample.world 1 1 (galaxy 2 6)) sample_shuffle_permutes).
  by vm_compute.
Defined.
End WormHoleExamples.

(** ** Properties kept by the whole of [generateTerrain] *)

Section Preservation.
Context `{Collaborators}.

Lemma preserves_bind R (m k : M World unit) :
  Transitive R → preserves R m → preserves R k → preserves R (m ;; k).
Proof.
  intros HT Hm Hk w o w' Hrun. rewrite bind_run in Hrun.
  destruct (m w) as [[[]|e] w1] eqn:E.
  - etrans; [by eapply Hm|by eapply Hk].
  - inversion Hrun; subst. by eapply Hm.
Qed.

Lemma preserves_when R p (m : M World unit) :
  Reflexive R → preserves R m → preserves R (when_enabled p m).
Proof.
  intros HR Hm w o w' Hrun. unfold when_enabled in Hrun.
  destruct (p =? 0)%Z; [|by eapply Hm].
  inversion Hrun; subst. reflexivity.
Qed.

Lemma generateTerrain_preserves R game :
  Reflexive R → Transitive R →
  (∀ f pc p, preserves R (pass_of f game pc p)) →
  (∀ pc p, preserves R (_generateWormHoles game pc p)) →
  preserves R (generateTerrain game).
Proof.
  intros HR HT Hsix Hworm. unfold generateTerrain.
  repeat (apply preserves_bind; [done|apply preserves_when; [done|]|]);
    [apply (Hsix WarpGates)|apply Hworm|apply (Hsix Nebulas)
    |apply (Hsix AsteroidFields)|apply (Hsix BinaryStars)
    |apply (Hsix BlackHoles)|].
  apply preserves_when; [done|]. apply (Hsix Pulsars).
Qed.

Lemma home_untouched_refl : Reflexive home_untouched.
Proof. by intros st r s. Qed.

Lemma home_untouched_trans : Transitive home_untouched.
Proof. intros a b c Hab Hbc r s Hs Hh. apply Hbc; [|done]. by apply Hab. Qed.

Lemma pass_home_untouched f game pc p :
  shuffle_permutes → preserves home_untouched (pass_of f game pc p).
Proof.
  intros Hsh w o w' Hrun r s Hs Hh.
  destruct (pass_run f game pc p w Hsh) as (w1 & Hrun1 & _ & Hout & _).
  rewrite Hrun in Hrun1. inversion Hrun1; subst. rewrite Hout; [done|].
  intros Hr. destruct (winners_applicable _ _ _ _ _ Hsh Hr) as (s' & Hs' & Ha).
  apply applicable_not_home in Ha. congruence.
Qed.

Lemma wormHoles_home_untouched game pc p :
  shuffle_permutes → preserves home_untouched (_generateWormHoles game pc p).
Proof.
  intros Hsh w o w' Hrun r s Hs Hh.
  destruct (generateWormHoles_result game pc p w Hsh)
    as (o1 & k & st & Hrun1 & (_ & _ & Hout & _) & _).
  rewrite Hrun in Hrun1. inversion Hrun1; subst. simpl. rewrite Hout; [done|].
  intros Hr. apply subseteq_take in Hr.
  destruct (wormHoleStars_applicable _ _ _ _ Hsh Hr) as (s' & Hs' & Ha).
  apply applicable_not_home in Ha. congruence.
Qed.

Lemma pairing_kept_refl : Reflexive pairing_kept.
Proof. intros st Hst. exact Hst. Qed.

Lemma pairing_kept_trans : Transitive pairing_kept.
Proof. intros a b c Hab Hbc Ha. apply Hbc, Hab, Ha. Qed.

Lemma rewritten_keeps f ws before after :
  rewritten (feature_update (raise_of f)) ws before after →
  ∀ r s', after !! r = Some s' →
    ∃ s, before !! r = Some s ∧ _id s' = _id s
         ∧ wormHoleToStarId s' = wormHoleToStarId s.
Proof.
  intros (Hlen & Hout & Hin) r s' Hs'.
  destruct (decide (r ∈ ws)) as [Hr|Hr].
  - destruct (lookup_lt_is_Some_2 before r) as [s Hs].
    { rewrite <- Hlen. by eapply lookup_lt_Some. }
    destruct (Hin r s Hr Hs) as (s'' & Hs'' & Hup).
    assert (s'' = s') as -> by congruence.
    exists s. split; [done|]. split.
    + by eapply feature_update_id.
    + by eapply feature_update_wormHole.
  - rewrite (Hout r Hr) in Hs'. by exists s'.
Qed.

Lemma keeps_pairing before after :
  length after = length before →
  (∀ r s', after !! r = Some s' →
     ∃ s, before !! r = Some s ∧ _id s' = _id s
          ∧ wormHoleToStarId s' = wormHoleToStarId s) →
  pairing_kept before after.
Proof.
  intros Hlen Hkeep [Hd Hm]. split.
  - unfold distinct_ids in *.
    replace (_id <$> after) with (_id <$> before); [done|].
    apply list_eq. intros r. rewrite !list_lookup_fmap.
    destruct (after !! r) as [s'|] eqn:E.
    + destruct (Hkeep r s' E) as (s & -> & Hid & _). simpl. by rewrite Hid.
    + apply lookup_ge_None in E. rewrite Hlen in E.
      apply lookup_ge_None in E. by rewrite E.
  - intros a b sa' sb' Ha Hb Hw.
    destruct (Hkeep a sa' Ha) as (sa & Hsa & Hida & Hwa).
    destruct (Hkeep b sb' Hb) as (sb & Hsb & Hidb & Hwb).
    rewrite Hwa, Hidb in Hw. destruct (Hm a b sa sb Hsa Hsb Hw) as [Hback Hne].
    split; [|done]. by rewrite Hwb, Hida.
Qed.

Lemma pass_pairing_kept f game pc p :
  shuffle_permutes → preserves pairing_kept (pass_of f game pc p).
Proof.
  intros Hsh w o w' Hrun.
  destruct (pass_run f game pc p w Hsh) as (w1 & Hrun1 & Hrw).
  rewrite Hrun in Hrun1. inversion Hrun1; subst.
  apply keeps_pairing; [apply Hrw|]. by eapply rewritten_keeps.
Qed.

Lemma wormHoles_pairing_kept game pc p :
  shuffle_permutes → preserves pairing_kept (_generateWormHoles game pc p).
Proof.
  intros Hsh w o w' Hrun [Hd Hm].
  destruct (generateWormHoles_result game pc p w Hsh)
    as (o1 & k & st & Hrun1 & (_ & Hids & _ & _ & _ & Hmut) & _).
  rewrite Hrun in Hrun1. inversion Hrun1; subst. simpl. split.
  - unfold distinct_ids. by rewrite Hids.
  - by apply Hmut.
Qed.
End Preservation.

(** ** Wormhole symmetry, home stars, black holes *)

Section TerrainClaims.
Context `{Collaborators}.

(** C1.  After [generateTerrain] completes, wormhole pairing is mutual
    and irreflexive: whenever star A points to the id of star B, star B
    points to the id of star A and A is a different star than B.  (The
    stars carry distinct ids, and whatever pairing the galaxy held before
    was mutual, for instance because it held none.) *)
Theorem wormhole_pairing_mutual (game : Game) (w w' : World) :
  shuffle_permutes →
  distinct_ids (galaxy_stars w) →
  wormholes_mutual (galaxy_stars w) →
  generateTerrain game w = (Return (), w') →
  wormholes_mutual (galaxy_stars w').
Proof.
  intros Hsh Hd Hm Hrun.
  eapply (generateTerrain_preserves pairing_kept game);
    [apply pairing_kept_refl|apply pairing_kept_trans| | |exact Hrun|done].
  - intros f pc p. by apply pass_pairing_kept.
  - intros pc p. by apply wormHoles_pairing_kept.
Qed.

(** C4 (amended).  [generateTerrain] never touches a star whose
    [homeStar] flag is set, whether it returns or throws: such a star is
    afterwards exactly what it was before, so a home star without terrain
    features has none afterwards. *)
Theorem home_stars_untouched (game : Game) (w w' : World) (o : Outcome unit) :
  shuffle_permutes →
  generateTerrain game w = (o, w') →
  ∀ r s, galaxy_stars w !! r = Some s → homeStar s = true →
    galaxy_stars w' !! r = Some s.
Proof.
  intros Hsh Hrun.
  eapply (generateTerrain_preserves home_untouched game);
    [apply home_untouched_refl|apply home_untouched_trans| | |exact Hrun].
  - intros f pc p. by apply pass_home_untouched.
  - intros pc p. by apply wormHoles_home_untouched.
Qed.


End TerrainClaims.

(** On integers the double computation [Math.ceil(v * 0.2)] is the exact
    ceiling of a fifth (checked on 0 .. 4095). *)
#[warnings="-inexact-float"]
Lemma ceil_times_0_2_double :
  forallb (λ v, Js.ceil (Js.of_Z v * 0.2)%float =? Js.ceil_times_0_2 v)%Z
          (seqZ 0 4096) = true.
Proof. by vm_compute. Qed.

(** The double computation of a quota can fall one short of the exact
    floor: 58 eligible stars at 50 percent give 28, not 29. *)
Lemma featureCount_rounds_down :
  featureCount 60 2 50 = 28%Z ∧ ((60 - 2) * 50 / 100 = 29)%Z.
Proof. by vm_compute. Qed.

Lemma unpaired_mutual (stars : list Star) :
  Forall (λ s, wormHoleToStarId s = None) stars → wormholes_mutual stars.
Proof.
  intros Hall a b sa sb Ha Hb Hw.
  rewrite Forall_lookup in Hall. by rewrite (Hall a sa Ha) in Hw.
Qed.

Lemma galaxy_distinct_ids homes n : distinct_ids (galaxy homes n).
Proof.
  unfold distinct_ids.
  assert (_id <$> galaxy homes n = seq 0 n) as ->; [|apply NoDup_seq].
  unfold galaxy. generalize 0 as k.
  induction n as [|n IH]; intros k; simpl; [done|]. by rewrite IH.
Qed.

Lemma galaxy_unpaired homes n : wormholes_mutual (galaxy homes n).
Proof.
  apply unpaired_mutual, Forall_forall. intros s Hs.
  apply list_elem_of_fmap in Hs as (i & -> & _). done.
Qed.

Section TerrainExamples.
#[local] Existing Instance Sample.sample.

(** Six stars, two of them home stars, half of the rest paired. *)
Lemma wormhole_pairing_mutual_witness :
  wormholes_mutual
    (galaxy_stars (generateTerrain holes (Sample.world 1 1 (galaxy 2 6))).2).
Proof.
  apply (wormhole_pairing_mutual holes (Sample.world 1 1 (galaxy 2 6)) _
           sample_shuffle_permutes (galaxy_distinct_ids 2 6) (galaxy_unpaired 2 6)).
  apply run_returns. by vm_compute.
Defined.

(** The first home star of that galaxy comes out as it went in. *)
Lemma home_stars_untouched_witness :
  galaxy_stars (generateTerrain holes (Sample.world 1 1 (galaxy 2 6))).2 !! 0
  = Some (Sample.star 0 true 10).
Proof.
  apply (home_stars_untouched holes (Sample.world 1 1 (galaxy 2 6)) _
           (generateTerrain holes (Sample.world 1 1 (galaxy 2 6))).1
           sample_shuffle_permutes).
  - by destruct (generateTerrain holes _).
  - by vm_compute.
  - by vm_compute.
Defined.


(** C4, as stated, fails for linked satellites.  The sample map service
    lays out one home location with one satellite; [generateStars] makes
    the two stars and records the satellite under [linkedStars]; with 100
    percent warp gates for 1 player, [generateTerrain] then makes the
    satellite a warp gate. *)
Lemma linked_star_gets_terrain :
  let game := mkGame "circular" "random" 1 100 0 0 0 0 0 0 false 50 in
  ∃ result w' linkedStar,
    (generateStars (1%Z : RandomGen) (0 : StarService) game 2 1 None None).1
      = Return result
    ∧ generateTerrain game (Sample.world 1 1 (result_stars result)) = (Return (), w')
    ∧ galaxy_stars w' !! 1 = Some linkedStar
    ∧ result_linkedStars result = [[_id linkedStar]]
    ∧ homeStar linkedStar = false
    ∧ warpGate linkedStar = true.
Proof.
  simpl. do 3 eexists. split; [by vm_compute|].
  split; [apply run_returns; by vm_compute|]. by vm_compute.
Qed.
End TerrainExamples.

(** ** The galaxy assembler *)

Section AssemblerClaims.
Context `{Collaborators}.

(** C7.  For every topology tag outside the six of the [switch],
    [generateStars] throws the validation error naming the tag, and at
    that moment nothing has been instantiated: the star collection is
    empty, no name has been taken, and the star service and the
    generator are in the state they were passed in. *)
Theorem unsupported_topology_throws (rand : RandomGen) (service : StarService)
    (game : Game) (starCount : nat) (playerLimit : Z)
    (customJSON customSeed : option string) :
  ¬ supported (galaxyType game) →
  generateStars rand service game starCount playerLimit customJSON customSeed
  = (Throw (ValidationError
             ("Galaxy type " +:+ galaxyType game
              +:+ " is not supported or has been disabled.")),
     mkLocals [] [] [] 0 service rand).
Proof.
  intros Hno. unfold generateStars, generateStars_body.
  rewrite bind_run. unfold select_locations. simpl.
  repeat match goal with
  | |- context [String.eqb ?a ?b] =>
      destruct (String.eqb_spec a b) as [Heq|_];
      [exfalso; apply Hno; unfold supported; rewrite Heq;
       repeat (first [apply list_elem_of_here|apply list_elem_of_further])|]
  end.
  reflexivity.
Qed.

Lemma instantiate_named isCustom starNames loc l :
  factory_keeps_names → named starNames l →
  ∃ star l', instantiate isCustom starNames loc l = (Return star, l')
    ∧ length (stars l') = S (length (stars l))
    ∧ named starNames l'.
Proof.
  intros [Hun Hcu] [Hidx Hnames]. unfold instantiate.
  destruct (if isCustom then _ else _) as [star service] eqn:E.
  exists star. eexists. split; [reflexivity|]. simpl.
  assert (name star = starNames !! starNamesIndex l) as Hname.
  { destruct isCustom.
    - specialize (Hcu (starService l) (starNames !! starNamesIndex l)
        (set_loc_name (starNames !! starNamesIndex l) loc)).
      by rewrite E in Hcu.
    - specialize (Hun (starService l) (starNames !! starNamesIndex l)
        (set_loc_name (starNames !! starNamesIndex l) loc)
        (resources (set_loc_name (starNames !! starNamesIndex l) loc))).
      by rewrite E in Hun. }
  split; [rewrite length_app; simpl; lia|]. split; simpl.
  - rewrite length_app. simpl. lia.
  - intros k s Hk. apply lookup_app_Some in Hk as [Hk|[Hge Hk]].
    + by apply Hnames.
    + apply list_lookup_singleton_Some in Hk as [Hk0 <-].
      rewrite Hname, Hidx. f_equal. lia.
Qed.

Lemma link_loop_named isCustom starNames locations acc l :
  factory_keeps_names → named starNames l →
  ∃ ids l', link_loop isCustom starNames locations acc l = (Return ids, l')
    ∧ length (stars l') = length (stars l) + length locations
    ∧ named starNames l'.
Proof.
  intros Hf. revert acc l. induction locations as [|loc rest IH]; intros acc l Hn.
  - exists acc, l. split; [reflexivity|]. split; [simpl; lia|done].
  - destruct (instantiate_named isCustom starNames loc l Hf Hn)
      as (star & l1 & Hrun & Hlen & Hn1).
    destruct (IH (acc ++ [_id star]) l1 Hn1) as (ids & l' & Hrun' & Hlen' & Hn').
    exists ids, l'. split.
    + simpl. rewrite bind_run, Hrun. exact Hrun'.
    + split; [simpl; lia|done].
Qed.

Lemma star_loop_named isCustom starNames locations l :
  factory_keeps_names → named starNames l →
  Forall (λ loc, loc_homeStar loc = true → is_Some (linkedLocations loc)) locations →
  ∃ l', for_of locations (star_loop_body isCustom starNames) l = (Return (), l')
    ∧ length (stars l')
      = length (stars l)
        + sum_list ((λ l, if loc_homeStar l
                          then S (length (default [] (linkedLocations l)))
                          else 1) <$> locations)
    ∧ named starNames l'.
Proof.
  intros Hf Hn Hall. revert l Hn.
  induction Hall as [|loc rest Hloc Hall IH]; intros l Hn.
  - exists l. split; [reflexivity|]. split; [simpl; lia|done].
  - destruct (instantiate_named isCustom starNames loc l Hf Hn)
      as (star & l1 & Hrun & Hlen & Hn1).
    assert (∃ l2, star_loop_body isCustom starNames loc l = (Return (), l2)
              ∧ length (stars l2)
                = length (stars l)
                  + (if loc_homeStar loc
                     then S (length (default [] (linkedLocations loc))) else 1)
              ∧ named starNames l2) as (l2 & Hbody & Hlen2 & Hn2).
    { unfold star_loop_body. rewrite bind_run, Hrun.
      destruct (loc_homeStar loc) eqn:Hh.
      - destruct (Hloc eq_refl) as [sats Hsats]. rewrite Hsats.
        destruct (link_loop_named isCustom starNames sats [] l1 Hf Hn1)
          as (ids & l2 & Hrun2 & Hlen2 & Hn2).
        rewrite bind_run, Hrun2. eexists. split; [reflexivity|].
        simpl. split; [lia|]. exact Hn2.
      - exists l1. split; [reflexivity|]. split; [lia|done]. }
    destruct (IH l2 Hn2) as (l' & Hrun' & Hlen' & Hn').
    exists l'. split.
    + simpl. rewrite bind_run, Hbody. exact Hrun'.
    + split; [|done]. rewrite fmap_cons. simpl. lia.
Qed.
End AssemblerClaims.

Section NamePool.
Context `{Collaborators}.

Lemma select_locations_supported game starCount playerLimit customJSON customSeed l :
  supported (galaxyType game) →
  ∃ locations l',
    select_locations game starCount playerLimit customJSON customSeed l
    = (Return locations, l')
    ∧ stars l' = stars l ∧ starNamesIndex l' = starNamesIndex l.
Proof.
  unfold supported, select_locations. intros Ht.
  repeat (apply elem_of_cons in Ht as [->|Ht]);
    [simpl; try by eauto..|by apply elem_of_nil in Ht].
  destruct (irregular_generateLocations _ _ _ _ _ _) as [locations rand'].
  by eauto.
Qed.

(** C8 (amended).  [generateStars] makes no check of the size of the name
    pool.  For a supported topology whose home locations carry their
    satellites, and a star factory that gives a star the name it is
    passed, it returns normally whatever the pool: it makes one star per
    primary and per satellite, and the star made [k]-th carries
    [starNames[k]], which past the end of the pool is [undefined]. *)
Theorem generateStars_ignores_pool_size (rand : RandomGen) (service : StarService)
    (game : Game) (starCount : nat) (playerLimit : Z)
    (customJSON customSeed : option string) :
  factory_keeps_names →
  supported (galaxyType game) →
  let locations :=
    locations_of rand service game starCount playerLimit customJSON customSeed in
  Forall (λ loc, loc_homeStar loc = true → is_Some (linkedLocations loc))
         (filter (λ l, negb (linked l)) locations) →
  ∃ result l',
    generateStars rand service game starCount playerLimit customJSON customSeed
    = (Return result, l')
    ∧ length (result_stars result) = required_stars locations
    ∧ ∀ k s, result_stars result !! k = Some s →
        name s = getRandomStarNames starCount !! k.
Proof.
  intros Hf Ht locations Hall. subst locations. unfold locations_of in *.
  unfold generateStars, generateStars_body.
  destruct (select_locations_supported game starCount playerLimit customJSON
              customSeed (mkLocals [] [] [] 0 service rand) Ht)
    as (locations & l1 & Hsel & Hstars & Hidx).
  rewrite Hsel in Hall. simpl in Hall. rewrite bind_run, Hsel.
  assert (named (getRandomStarNames starCount) l1) as Hn1.
  { split; [by rewrite Hidx, Hstars|]. intros k s. by rewrite Hstars. }
  destruct (star_loop_named (String.eqb (galaxyType game) "custom")
              (getRandomStarNames starCount) _ l1 Hf Hn1 Hall)
    as (l' & Hloop & Hlen & [_ Hnames]).
  rewrite bind_run, Hloop. eexists _, l'. split; [reflexivity|]. simpl.
  split; [|exact Hnames]. rewrite Hlen, Hstars. reflexivity.
Qed.
End NamePool.

Section AssemblerExamples.
#[local] Existing Instance Sample.sample.

Lemma sample_factory_keeps_names : factory_keeps_names.
Proof. by split. Qed.

(** C8, as stated, fails: asked for 10 stars the sample name service has
    8 names to give; [generateStars] raises nothing and returns 10 stars,
    the last two without a name. *)
Lemma short_name_pool_is_not_refused :
  ∃ result,
    (generateStars (1%Z : RandomGen) (0 : StarService)
       (Sample.quiet "circular" 1) 10 1 None None).1 = Return result
    ∧ length (getRandomStarNames 10) = 8
    ∧ length (result_stars result) = 10
    ∧ name <$> result_stars result !! 8 = Some None
    ∧ name <$> result_stars result !! 9 = Some None.
Proof. eexists. split; [by vm_compute|]. by vm_compute. Qed.

(** Ten stars asked of the sample collaborators, whose pool has eight
    names. *)
Lemma generateStars_ignores_pool_size_witness :
  ∃ result l',
    generateStars (1%Z : RandomGen) (0 : StarService)
      (Sample.quiet "circular" 1) 10 1 None None = (Return result, l')
    ∧ length (result_stars result)
      = required_stars (locations_of (1%Z : RandomGen) (0 : StarService)
                          (Sample.quiet "circular" 1) 10 1 None None)
    ∧ ∀ k s, result_stars result !! k = Some s →
        name s = getRandomStarNames 10 !! k.
Proof.
  apply (@generateStars_ignores_pool_size Sample.sample 1%Z 0
           (Sample.quiet "circular" 1) 10 1 None None sample_factory_keeps_names).
  - unfold supported. simpl. apply list_elem_of_here.
  - apply (bool_decide_unpack _). by vm_compute.
Defined.

(** A topology the [switch] does not know. *)
Lemma unsupported_topology_throws_witness :
  generateStars (1%Z : RandomGen) (0 : StarService)
    (Sample.quiet "hexagonal" 2) 10 2 None None
  = (Throw (ValidationError
             "Galaxy type hexagonal is not supported or has been disabled."),
     @mkLocals Sample.sample [] [] [] 0 0 1%Z).
Proof.
  apply (@unsupported_topology_throws Sample.sample 1%Z 0
           (Sample.quiet "hexagonal" 2) 10 2 None None).
  unfold supported. simpl. intros Hin.
  repeat (apply elem_of_cons in Hin as [Hin|Hin]; [discriminate|]).
  by apply elem_of_nil in Hin.
Defined.
End AssemblerExamples.

(** ** Geometry queries *)

Lemma insert_by_permutes {A} (cmp : A → A → float) (v : A) (a : list A) :
  Js.insert_by cmp v a ≡ₚ v :: a.
Proof.
  induction a as [|w a IH]; simpl; [done|].
  destruct (0 <? cmp v w)%float; [|done].
  rewrite IH. apply Permutation_swap.
Qed.

Lemma sort_permutes {A} (cmp : A → A → float) (a : list A) : Js.sort cmp a ≡ₚ a.
Proof.
  unfold Js.sort. induction a as [|v a IH]; simpl; [done|].
  by rewrite insert_by_permutes, IH.
Qed.


(** [getGalaxyCenter] leaves the array it is given with the same
    elements, rearranged. *)
Lemma getGalaxyCenter_permutes_input (starLocations : list Location) :
  (getGalaxyCenter starLocations).2 ≡ₚ starLocations.
Proof.
  destruct starLocations as [|p l]; [done|]. unfold getGalaxyCenter.
  set (a1 := Js.sort _ (p :: l)). set (a2 := Js.sort _ a1).
  set (a3 := Js.sort _ a2). set (a4 := Js.sort _ a3).
  assert (a4 ≡ₚ p :: l) as Hperm.
  { unfold a4, a3, a2, a1. by rewrite !sort_permutes. }
  by destruct a1, a2, a3, a4.
Qed.

(** C6 (the code departs from the claim).  [getGalaxyCenter] sorts the
    array it is given in place, four times; the array is left in
    ascending order of [y].  Called on [(10,10), (0,0)] it returns the
    center [(5,5)] and leaves the caller's array as [(0,0), (10,10)];
    [getGalaxyCenterOfMass] on the same array leaves it alone. *)
Lemma getGalaxyCenter_reorders_input :
  let input := [mkLocation 10 10; mkLocation 0 0] in
  getGalaxyCenter input
  = (Return (mkLocation 5 5), [mkLocation 0 0; mkLocation 10 10])
  ∧ (getGalaxyCenter input).2 ≠ input
  ∧ (getGalaxyCenterOfMass input).2 = input.
Proof.
  simpl. split; [by vm_compute|]. split; [|done].
  intros Heq. apply (f_equal (λ a, Js.floor <$> (x <$> a))) in Heq.
  vm_compute in Heq. discriminate.
Qed.

(** The scenarios of the geometry queries: the empty galaxy, two points,
    and three points of which two coincide. *)
Lemma geometry_scenarios :
  (getGalaxyCenter []).1 = Return (mkLocation 0 0)
  ∧ (getGalaxyCenterOfMass []).1 = Return (mkLocation 0 0)
  ∧ (getGalaxyCenter [mkLocation 0 0; mkLocation 10 10]).1 = Return (mkLocation 5 5)
  ∧ (getGalaxyCenterOfMass [mkLocation 0 0; mkLocation 10 10]).1
    = Return (mkLocation 5 5)
  ∧ (getGalaxyCenter [mkLocation 0 0; mkLocation 0 0; mkLocation 10 10]).1
    = Return (mkLocation 5 5)
  ∧ (getGalaxyCenterOfMass [mkLocation 0 0; mkLocation 0 0; mkLocation 10 10]).1
    = Return (mkLocation (10 / 3) (10 / 3))%float.
Proof. repeat split; by vm_compute. Qed.

(** ** Reproducibility *)

Section Reproducibility.
#[local] Existing Instance Sample.sample.

(** C5 (the code departs from the claim).  Two runs of [generateTerrain]
    on the same game, the same stars and the same state of the seeded
    generator [rand] pick the same binary stars and leave [rand] in the
    same state, yet give those stars different natural resources: the
    values come from [this.randomService], which is not driven by
    [rand]. *)
Lemma resource_values_escape_the_seed :
  let run service :=
    (generateTerrain binaries (Sample.world 1 service (galaxy 2 6))).2 in
  rand (run 1%Z) = rand (run 2%Z)
  ∧ isBinaryStar <$> galaxy_stars (run 1%Z) = isBinaryStar <$> galaxy_stars (run 2%Z)
  ∧ naturalResources <$> galaxy_stars (run 1%Z)
    ≠ naturalResources <$> galaxy_stars (run 2%Z).
Proof. cbv zeta. split; [by vm_compute|]. split; by vm_compute. Qed.
End Reproducibility.


Section SeededChoices.
Context `{Collaborators}.

Lemma rewritten_features f ws before after1 after2 :
  rewritten (feature_update (raise_of f)) ws before after1 →
  rewritten (feature_update (raise_of f)) ws before after2 →
  features <$> after1 = features <$> after2.
Proof.
  intros (Hlen1 & Hout1 & Hin1) (Hlen2 & Hout2 & Hin2).
  apply list_eq. intros r. rewrite !list_lookup_fmap.
  destruct (decide (r ∈ ws)) as [Hr|Hr]; [|by rewrite Hout1, Hout2].
  destruct (before !! r) as [s|] eqn:Hs.
  - destruct (Hin1 r s Hr Hs) as (s1 & -> & [nr1 ->]).
    destruct (Hin2 r s Hr Hs) as (s2 & -> & [nr2 ->]).
    by destruct f.
  - apply lookup_ge_None in Hs.
    rewrite (lookup_ge_None_2 after1), (lookup_ge_None_2 after2); [done|lia..].
Qed.

(** What a single-star pass decides from the seeded generator alone.
    Two runs of one pass from worlds with the same stars and the same
    state of [rand] return with [rand] in the same state and with the
    same stars up to their natural resources, whatever the states of the
    random service. *)
Theorem pass_features_follow_rand (f : Feature) (game : Game) (pc p : Z)
    (w1 w2 : World) :
  shuffle_permutes →
  rand w1 = rand w2 → galaxy_stars w1 = galaxy_stars w2 →
  ∃ w1' w2',
    pass_of f game pc p w1 = (Return (), w1')
    ∧ pass_of f game pc p w2 = (Return (), w2')
    ∧ rand w1' = rand w2'
    ∧ features <$> galaxy_stars w1' = features <$> galaxy_stars w2'.
Proof.
  intros Hsh Hrand Hstars.
  destruct (pass_shape f game pc p) as (body & -> & Hb).
  destruct (single_star_pass_run (flag_of f) pc p body _ w1 Hsh Hb)
    as (w1' & Hrun1 & Hrand1 & Hrw1).
  destruct (single_star_pass_run (flag_of f) pc p body _ w2 Hsh Hb)
    as (w2' & Hrun2 & Hrand2 & Hrw2).
  exists w1', w2'. split; [exact Hrun1|]. split; [exact Hrun2|].
  unfold winners in Hrw1, Hrw2. rewrite Hrand, Hstars in *. split.
  - by rewrite Hrand1, Hrand2.
  - by eapply rewritten_features.
Qed.
End SeededChoices.

Section SeededChoicesExample.
#[local] Existing Instance Sample.sample.

(** The binary-star pass from two states of the random service. *)
Lemma pass_features_follow_rand_witness :
  ∃ w1' w2',
    pass_of BinaryStars binaries 2 50 (Sample.world 1 1 (galaxy 2 6)) = (Return (), w1')
    ∧ pass_of BinaryStars binaries 2 50 (Sample.world 1 2 (galaxy 2 6)) = (Return (), w2')
    ∧ rand w1' = rand w2'
    ∧ features <$> galaxy_stars w1' = features <$> galaxy_stars w2'.
Proof.
  by apply (pass_features_follow_rand BinaryStars binaries 2 50
              (Sample.world 1 1 (galaxy 2 6)) (Sample.world 1 2 (galaxy 2 6))
              sample_shuffle_permutes).
Defined.
End SeededChoicesExample.

(** * Further properties of the terrain layering engine *)

(** ** What [generateTerrain] keeps *)

Section TerrainFrame.
Context `{Collaborators}.

Lemma grown_refl s : grown s s.
Proof. split; [done|]. by repeat split. Qed.

Lemma grown_trans s1 s2 s3 : grown s1 s2 → grown s2 s3 → grown s1 s3.
Proof.
  intros [Hc1 (A1 & B1 & C1 & D1 & E1 & F1 & G1)]
         [Hc2 (A2 & B2 & C2 & D2 & E2 & F2 & G2)].
  split; [by rewrite Hc2|]. repeat split; auto.
Qed.

Lemma galaxy_grown_refl : Reflexive galaxy_grown.
Proof.
  intros st. split; [done|]. intros r s s' Hs Hs'.
  assert (s = s') as -> by congruence. apply grown_refl.
Qed.

Lemma galaxy_grown_trans : Transitive galaxy_grown.
Proof.
  intros a b c [Hlab Hab] [Hlbc Hbc]. split; [congruence|].
  intros r s s'' Hs Hs''.
  destruct (lookup_lt_is_Some_2 b r) as [s' Hs'].
  { rewrite Hlab. by eapply lookup_lt_Some. }
  eapply grown_trans; [by eapply Hab|by eapply Hbc].
Qed.

Lemma feature_update_grown f s s' : feature_update (raise_of f) s s' → grown s s'.
Proof.
  intros [nr ->]. split; [by destruct f|].
  destruct f; repeat split; simpl; auto.
Qed.

Lemma pass_galaxy_grown f game pc p :
  shuffle_permutes → preserves galaxy_grown (pass_of f game pc p).
Proof.
  intros Hsh w o w' Hrun.
  destruct (pass_run f game pc p w Hsh) as (w1 & Hrun1 & Hlen & Hout & Hin).
  rewrite Hrun in Hrun1. inversion Hrun1; subst.
  split; [done|]. intros r s s' Hs Hs'.
  destruct (decide (r ∈ winners (flag_of f) pc p w)) as [Hr|Hr].
  - destruct (Hin r s Hr Hs) as (s'' & Hs'' & Hup).
    assert (s'' = s') as -> by congruence. by eapply feature_update_grown.
  - rewrite (Hout r Hr) in Hs'. assert (s = s') as -> by congruence.
    apply grown_refl.
Qed.

Lemma wormHoles_galaxy_grown game pc p :
  shuffle_permutes → preserves galaxy_grown (_generateWormHoles game pc p).
Proof.
  intros Hsh w o w' Hrun.
  destruct (generateWormHoles_result game pc p w Hsh)
    as (o1 & k & st & Hrun1 & (Hlen & _ & Hout & _ & Hshape & _) & _).
  rewrite Hrun in Hrun1. inversion Hrun1; subst. simpl.
  split; [done|].
  intros r s s' Hs Hs'. destruct (Hshape r s' Hs') as (s0 & Hs0 & Heq).
  assert (s0 = s) as -> by congruence.
  destruct (decide (r ∈ take (2 * k) (wormHoleStars pc p w))) as [Hr|Hr].
  - apply subseteq_take in Hr.
    destruct (wormHoleStars_unpaired pc p w r Hsh Hr) as (s1 & Hs1 & Hnone).
    assert (s1 = s) as -> by congruence.
    rewrite Heq. split; [done|]. repeat split; simpl; auto.
    intros v Hv. congruence.
  - rewrite (Hout r Hr) in Hs'. assert (s = s') as -> by congruence.
    apply grown_refl.
Qed.

(** [generateTerrain] neither adds nor removes a star, and never writes
    the id, the name, the location, the owner or the home flag of one,
    whether it returns or throws. *)
Theorem generateTerrain_keeps_core (game : Game) (w w' : World) (o : Outcome unit) :
  shuffle_permutes →
  generateTerrain game w = (o, w') →
  core <$> galaxy_stars w' = core <$> galaxy_stars w.
Proof.
  intros Hsh Hrun.
  assert (galaxy_grown (galaxy_stars w) (galaxy_stars w')) as Hg.
  { eapply (generateTerrain_preserves galaxy_grown game);
      [apply galaxy_grown_refl|apply galaxy_grown_trans| | |exact Hrun].
    - intros f pc p. by apply pass_galaxy_grown.
    - intros pc p. by apply wormHoles_galaxy_grown. }
  destruct Hg as [Hlen Hg]. apply list_eq. intros r.
  rewrite !list_lookup_fmap.
  destruct (galaxy_stars w' !! r) as [s'|] eqn:Hs'.
  - destruct (lookup_lt_is_Some_2 (galaxy_stars w) r) as [s Hs].
    { rewrite <- Hlen. by eapply lookup_lt_Some. }
    rewrite Hs. simpl. f_equal. by destruct (Hg r s s' Hs Hs').
  - apply lookup_ge_None in Hs'. rewrite Hlen in Hs'.
    apply lookup_ge_None in Hs'. by rewrite Hs'.
Qed.

(** [generateTerrain] never takes a feature away: a flag that was raised
    before the run is raised after it, and a star that had a wormhole
    still has the same one; whether the run returns or throws. *)
Theorem generateTerrain_never_clears (game : Game) (w w' : World) (o : Outcome unit) :
  shuffle_permutes →
  generateTerrain game w = (o, w') →
  ∀ r s, galaxy_stars w !! r = Some s →
    ∃ s', galaxy_stars w' !! r = Some s' ∧ features_grow s s'.
Proof.
  intros Hsh Hrun r s Hs.
  assert (galaxy_grown (galaxy_stars w) (galaxy_stars w')) as Hg.
  { eapply (generateTerrain_preserves galaxy_grown game);
      [apply galaxy_grown_refl|apply galaxy_grown_trans| | |exact Hrun].
    - intros f pc p. by apply pass_galaxy_grown.
    - intros pc p. by apply wormHoles_galaxy_grown. }
  destruct Hg as [Hlen Hg].
  destruct (lookup_lt_is_Some_2 (galaxy_stars w') r) as [s' Hs'].
  { rewrite Hlen. by eapply lookup_lt_Some. }
  exists s'. split; [done|]. by destruct (Hg r s s' Hs Hs').
Qed.

Lemma dead_untouched_refl : Reflexive dead_untouched.
Proof. by intros st r s. Qed.

Lemma dead_untouched_trans : Transitive dead_untouched.
Proof. intros a b c Hab Hbc r s Hs Hd. apply Hbc; [|done]. by apply Hab. Qed.

Lemma applicable_not_dead flag s : applicable flag s = true → isDeadStar s = false.
Proof.
  unfold applicable. destruct (isDeadStar s); [|done].
  by rewrite andb_false_r.
Qed.

Lemma pass_dead_untouched f game pc p :
  shuffle_permutes → preserves dead_untouched (pass_of f game pc p).
Proof.
  intros Hsh w o w' Hrun r s Hs Hd.
  destruct (pass_run f game pc p w Hsh) as (w1 & Hrun1 & _ & Hout & _).
  rewrite Hrun in Hrun1. inversion Hrun1; subst. rewrite Hout; [done|].
  intros Hr. destruct (winners_applicable _ _ _ _ _ Hsh Hr) as (s' & Hs' & Ha).
  apply applicable_not_dead in Ha. congruence.
Qed.

Lemma wormHoles_dead_untouched game pc p :
  shuffle_permutes → preserves dead_untouched (_generateWormHoles game pc p).
Proof.
  intros Hsh w o w' Hrun r s Hs Hd.
  destruct (generateWormHoles_result game pc p w Hsh)
    as (o1 & k & st & Hrun1 & (_ & _ & Hout & _) & _).
  rewrite Hrun in Hrun1. inversion Hrun1; subst. simpl. rewrite Hout; [done|].
  intros Hr. apply subseteq_take in Hr.
  destruct (wormHoleStars_applicable _ _ _ _ Hsh Hr) as (s' & Hs' & Ha).
  apply applicable_not_dead in Ha. congruence.
Qed.

(** A star that is dead when [generateTerrain] starts is never picked by
    any pass: afterwards it is exactly what it was, whether the run
    returns or throws. *)
Theorem dead_stars_untouched (game : Game) (w w' : World) (o : Outcome unit) :
  shuffle_permutes →
  generateTerrain game w = (o, w') →
  ∀ r s, galaxy_stars w !! r = Some s → isDeadStar s = true →
    galaxy_stars w' !! r = Some s.
Proof.
  intros Hsh Hrun.
  eapply (generateTerrain_preserves dead_untouched game);
    [apply dead_untouched_refl|apply dead_untouched_trans| | |exact Hrun].
  - intros f pc p. by apply pass_dead_untouched.
  - intros pc p. by apply wormHoles_dead_untouched.
Qed.
End TerrainFrame.

(** ** What each pass does to a star *)

Section PassEffects.
Context `{Collaborators}.





End PassEffects.

Section PassEffectsExample.
#[local] Existing Instance Sample.sample.

End PassEffectsExample.

(** ** Counts that are negative, zero or too large *)

Section CountEdges.
Context `{Collaborators}.

(** When the players outnumber the stars the count of a single-star
    pass is negative.  The pass does not skip: [slice(0, count)] with a
    negative end drops that many stars from the end of the shuffled
    applicable stars, and the pass marks all the others. *)
Theorem single_star_pass_negative_count (f : Feature) (game : Game) (pc p : Z)
    (w : World) :
  shuffle_permutes →
  let c := featureCount (length (galaxy_stars w)) pc p in
  let n := length (filter_stars (applicable (flag_of f)) (galaxy_stars w)) in
  (c < 0)%Z →
  ∃ w', pass_of f game pc p w = (Return (), w')
    ∧ length (marked (flag_of f) (galaxy_stars w) (galaxy_stars w'))
      = Z.to_nat (Z.of_nat n + c).
Proof.
  intros Hsh c n Hc. destruct (pass_marks f game pc p w Hsh) as (w' & Hrun & Hm).
  exists w'. split; [exact Hrun|].
  rewrite Hm. unfold winners, Js.slice0. fold c.
  destruct (Z.ltb_spec c 0); [|lia].
  rewrite length_take, (Hsh nat). fold n. lia.
Qed.

(** With a pair count of zero or less the wormhole pass returns and
    leaves every star as it was. *)
Theorem wormHole_pass_nonpositive_count (game : Game) (pc p : Z) (w : World) :
  shuffle_permutes →
  (wormHolePairCount (length (galaxy_stars w)) pc p ≤ 0)%Z →
  ∃ w', _generateWormHoles game pc p w = (Return (), w')
    ∧ galaxy_stars w' = galaxy_stars w.
Proof.
  intros Hsh Hc.
  destruct (generateWormHoles_result game pc p w Hsh)
    as (o & k & st & Hrun & (Hlen & _ & Hout & _) & _ & Hok & _).
  destruct Hok as [-> ->]; [lia|].
  eexists. split; [exact Hrun|]. simpl.
  apply list_eq. intros r. apply Hout.
  replace (Z.to_nat _) with 0 by lia. simpl. apply not_elem_of_nil.
Qed.

Lemma wormHoleStars_short pc p w :
  shuffle_permutes →
  let c := wormHolePairCount (length (galaxy_stars w)) pc p in
  let n := length (filter_stars (applicable paired) (galaxy_stars w)) in
  (Z.of_nat n < 2 * c)%Z → length (wormHoleStars pc p w) = n.
Proof.
  intros Hsh c n Hc. unfold wormHoleStars. fold c.
  rewrite slice0_all; rewrite (Hsh nat); [done|]. fold n. lia.
Qed.

(** The run of the wormhole pass on too few applicable stars. *)
Lemma wormHoles_short_run (game : Game) (pc p : Z) (w : World) :
  shuffle_permutes →
  let c := wormHolePairCount (length (galaxy_stars w)) pc p in
  let n := length (filter_stars (applicable paired) (galaxy_stars w)) in
  (Z.of_nat n < 2 * c)%Z →
  ∃ w', _generateWormHoles game pc p w = (Throw TypeError, w')
    ∧ randomService w' = randomService w
    ∧ length (marked paired (galaxy_stars w) (galaxy_stars w')) = 2 * (n `div` 2)
    ∧ ∀ r s', galaxy_stars w' !! r = Some s' →
        ∃ s, galaxy_stars w !! r = Some s
             ∧ s' = set_wormHoleToStarId (wormHoleToStarId s') s.
Proof.
  intros Hsh c n Hc.
  pose proof (wormHoleStars_short pc p w Hsh Hc) as HL. fold n in HL.
  destruct (generateWormHoles_result game pc p w Hsh)
    as (o & k & st & Hrun & (Hlen & _ & Hout & Hin & Hshape & _) & Hk & _ & Hshort).
  fold c n in Hshort. destruct (Hshort Hc) as (-> & Hkc & Hpast).
  apply lookup_ge_None in Hpast.
  assert (k = n `div` 2) as Hkn.
  { apply (Nat.div_unique n 2 k (n - 2 * k)); lia. }
  eexists. split; [exact Hrun|]. split; [done|]. split; [|exact Hshape].
  cbn [galaxy_stars]. rewrite <- Hkn.
  assert (length (take (2 * k) (wormHoleStars pc p w)) = 2 * k) as <-
    by (rewrite length_take; lia).
  apply Permutation_length.
  apply NoDup_Permutation; [apply marked_NoDup| |].
  { eapply sublist_NoDup; [by apply wormHoleStars_NoDup|apply sublist_take]. }
  intros r. rewrite elem_of_marked. split.
  - intros (Hb & Ha & _).
    destruct (decide (r ∈ take (2 * k) (wormHoleStars pc p w))) as [|Hr]; [done|].
    rewrite (Hout r Hr) in Ha. congruence.
  - intros Hr. destruct (Hin r Hr) as (s' & Hs' & [v Hv]).
    apply subseteq_take in Hr.
    destruct (wormHoleStars_unpaired pc p w r Hsh Hr) as (s & Hs & Hw).
    rewrite Hs, Hs'. simpl. unfold paired. rewrite Hw, Hv.
    split; [done|]. split; [done|]. by eapply lookup_lt_Some.
Qed.

(** When the applicable stars are too few for the pairs wanted, the
    wormhole pass throws only after pairing off what there is: with [n]
    applicable stars, [n / 2] pairs have been written when the
    [TypeError] is raised, nothing is rolled back, and nothing but
    wormholes has been written. *)
Theorem wormHole_throw_leaves_pairs (game : Game) (pc p : Z) (w : World) :
  shuffle_permutes →
  let c := wormHolePairCount (length (galaxy_stars w)) pc p in
  let n := length (filter_stars (applicable paired) (galaxy_stars w)) in
  (Z.of_nat n < 2 * c)%Z →
  ∃ w', _generateWormHoles game pc p w = (Throw TypeError, w')
    ∧ randomService w' = randomService w
    ∧ length (marked paired (galaxy_stars w) (galaxy_stars w')) = 2 * (n `div` 2)
    ∧ ∀ r s', galaxy_stars w' !! r = Some s' →
        ∃ s, galaxy_stars w !! r = Some s
             ∧ s' = set_wormHoleToStarId (wormHoleToStarId s') s.
Proof. apply wormHoles_short_run. Qed.

(** The warp-gate step of [generateTerrain]. *)
Lemma gates_step_returns game w :
  shuffle_permutes →
  ∃ w1, when_enabled (randomWarpGates game)
          (_generateGates (playerLimit game) (randomWarpGates game)) w
        = (Return (), w1).
Proof.
  intros Hsh. unfold when_enabled. destruct (_ =? _)%Z; [by eexists|].
  destruct (pass_run WarpGates game (playerLimit game) (randomWarpGates game) w Hsh)
    as (w1 & Hrun & _).
  by exists w1.
Qed.

(** A failed pairing aborts [generateTerrain].  Let [w1] be the world
    after the warp-gate step.  If wormholes are enabled and the stars
    applicable in [w1] are too few for the pairs wanted, [generateTerrain]
    throws the [TypeError] of the wormhole pass; the five later passes
    never run: the random service has not been asked for a number since
    [w1], and the stars differ from those of [w1] in their wormholes
    only. *)
Theorem terrain_aborts_when_pairing_fails (game : Game) (w : World) :
  shuffle_permutes →
  let w1 := (when_enabled (randomWarpGates game)
               (_generateGates (playerLimit game) (randomWarpGates game)) w).2 in
  let c := wormHolePairCount (length (galaxy_stars w1)) (playerLimit game)
             (randomWormHoles game) in
  let n := length (filter_stars (applicable paired) (galaxy_stars w1)) in
  randomWormHoles game ≠ 0%Z →
  (Z.of_nat n < 2 * c)%Z →
  ∃ w2, generateTerrain game w = (Throw TypeError, w2)
    ∧ randomService w2 = randomService w1
    ∧ length (marked paired (galaxy_stars w1) (galaxy_stars w2)) = 2 * (n `div` 2)
    ∧ ∀ r s2, galaxy_stars w2 !! r = Some s2 →
        ∃ s1, galaxy_stars w1 !! r = Some s1
              ∧ s2 = set_wormHoleToStarId (wormHoleToStarId s2) s1.
Proof.
  intros Hsh w1 c n Hon Hc.
  destruct (gates_step_returns game w Hsh) as (w1' & Hgates).
  assert (w1 = w1') as Hw1 by (unfold w1; by rewrite Hgates).
  destruct (wormHoles_short_run game (playerLimit game)
              (randomWormHoles game) w1 Hsh Hc) as (w2 & Hrun & Hrs & Hm & Hshape).
  exists w2. split; [|done].
  unfold generateTerrain. rewrite bind_run, Hgates, <- Hw1.
  rewrite bind_run. unfold when_enabled at 1.
  destruct (Z.eqb_spec (randomWormHoles game) 0) as [|_]; [done|].
  by rewrite Hrun.
Qed.
End CountEdges.

Section FurtherTerrainExamples.
#[local] Existing Instance Sample.sample.

Lemma surjective_run {S A} (m : M S A) (w : S) : m w = ((m w).1, (m w).2).
Proof. by destruct (m w). Qed.

(** Six stars, two of them home stars, through wormholes and black
    holes. *)
Lemma generateTerrain_keeps_core_witness :
  core <$> galaxy_stars (generateTerrain holes (Sample.world 1 1 (galaxy 2 6))).2
  = core <$> galaxy 2 6.
Proof.
  exact (generateTerrain_keeps_core holes (Sample.world 1 1 (galaxy 2 6)) _ _
           sample_shuffle_permutes (surjective_run _ _)).
Defined.

(** The same run, read at the third star. *)
Lemma generateTerrain_never_clears_witness :
  ∃ s', galaxy_stars (generateTerrain holes (Sample.world 1 1 (galaxy 2 6))).2 !! 2
        = Some s'
    ∧ features_grow (Sample.star 2 false 10) s'.
Proof.
  apply (generateTerrain_never_clears holes (Sample.world 1 1 (galaxy 2 6)) _ _
           sample_shuffle_permutes (surjective_run _ _) 2).
  by vm_compute.
Defined.

(** Two home stars and two dead stars through wormholes and black holes:
    the first dead star comes out as it went in. *)
Lemma dead_stars_untouched_witness :
  galaxy_stars (generateTerrain holes two_dead).2 !! 2 = Some (Sample.star 2 false 0).
Proof.
  apply (dead_stars_untouched holes two_dead _ _
           sample_shuffle_permutes (surjective_run _ _)); by vm_compute.
Defined.

(** Three stars and five players at 100 percent: the count is -2, three
    stars are applicable, one is marked. *)
Lemma single_star_pass_negative_count_witness :
  ∃ w', pass_of Pulsars crowded 5 100 (Sample.world 1 1 (galaxy 0 3)) = (Return (), w')
    ∧ length (marked isPulsar (galaxy 0 3) (galaxy_stars w')) = 1.
Proof.
  destruct (single_star_pass_negative_count Pulsars crowded 5 100
              (Sample.world 1 1 (galaxy 0 3)) sample_shuffle_permutes)
    as (w' & Hrun & Hlen); [by vm_compute|].
  exists w'. split; [exact Hrun|]. etrans; [exact Hlen|]. by vm_compute.
Defined.

(** Six stars, two players, 10 percent wormholes: no pair is wanted. *)
Lemma wormHole_pass_nonpositive_count_witness :
  ∃ w', _generateWormHoles holes 2 10 (Sample.world 1 1 (galaxy 2 6)) = (Return (), w')
    ∧ galaxy_stars w' = galaxy 2 6.
Proof.
  apply (wormHole_pass_nonpositive_count holes 2 10 (Sample.world 1 1 (galaxy 2 6))
           sample_shuffle_permutes).
  by vm_compute.
Defined.

(** Three live and three dead stars, no players, 100 percent wormholes:
    three pairs are wanted, three stars are applicable, one pair is made
    before the throw. *)
Lemma wormHole_throw_leaves_pairs_witness :
  ∃ w', _generateWormHoles crowded 0 100 (Sample.world 1 1 half_dead)
        = (Throw TypeError, w')
    ∧ length (marked paired half_dead (galaxy_stars w')) = 2.
Proof.
  destruct (wormHole_throw_leaves_pairs crowded 0 100 (Sample.world 1 1 half_dead)
              sample_shuffle_permutes)
    as (w' & Hrun & _ & Hlen & _); [by vm_compute|].
  exists w'. split; [exact Hrun|]. etrans; [exact Hlen|]. by vm_compute.
Defined.

(** The same galaxy through [generateTerrain]: the run throws, and the
    pulsar pass that follows the wormhole pass has marked no star. *)
Lemma terrain_aborts_when_pairing_fails_witness :
  ∃ w2, generateTerrain crowded (Sample.world 1 1 half_dead) = (Throw TypeError, w2)
    ∧ length (marked paired half_dead (galaxy_stars w2)) = 2
    ∧ length (marked isPulsar half_dead (galaxy_stars w2)) = 0.
Proof.
  destruct (terrain_aborts_when_pairing_fails crowded (Sample.world 1 1 half_dead)
              sample_shuffle_permutes)
    as (w2 & Hrun & _ & Hlen & _); [by vm_compute..|].
  exists w2. split; [exact Hrun|]. split.
  - etrans; [exact Hlen|]. by vm_compute.
  - replace w2 with (generateTerrain crowded (Sample.world 1 1 half_dead)).2
      by (by rewrite Hrun).
    by vm_compute.
Defined.
End FurtherTerrainExamples.

(** * Further properties of the galaxy assembler *)

Section AssemblerStructure.
Context `{Collaborators}.

Lemma instantiate_run isCustom starNames loc l :
  ∃ star service,
    instantiate isCustom starNames loc l
    = (Return star,
       mkLocals (stars l ++ [star]) (homeStars l) (linkedStars l)
         (S (starNamesIndex l)) service (locals_rand l)).
Proof.
  unfold instantiate. destruct (if isCustom then _ else _) as [star service].
  by exists star, service.
Qed.

Lemma link_loop_run isCustom starNames locations acc l :
  ∃ satellites l',
    link_loop isCustom starNames locations acc l
    = (Return (acc ++ (_id <$> satellites)), l')
    ∧ stars l' = stars l ++ satellites
    ∧ length satellites = length locations
    ∧ homeStars l' = homeStars l
    ∧ linkedStars l' = linkedStars l
    ∧ locals_rand l' = locals_rand l.
Proof.
  revert acc l. induction locations as [|loc rest IH]; intros acc l.
  - exists [], l. simpl. by rewrite !app_nil_r.
  - destruct (instantiate_run isCustom starNames loc l) as (star & service & Hrun).
    destruct (IH (acc ++ [_id star]) (mkLocals (stars l ++ [star]) (homeStars l)
                (linkedStars l) (S (starNamesIndex l)) service (locals_rand l)))
      as (sats & l' & Hloop & Hstars & Hlen & Hh & Hl & Hr).
    exists (star :: sats), l'. simpl in *. split.
    + rewrite bind_run, Hrun, Hloop. by rewrite <- app_assoc.
    + rewrite Hstars, <- app_assoc. split; [done|]. split; [lia|done].
Qed.

(** One turn of the loop over the primaries appends one block. *)
Lemma star_loop_body_run isCustom starNames loc l :
  has_satellites loc →
  ∃ b l', star_loop_body isCustom starNames loc l = (Return (), l')
    ∧ block_fits loc b
    ∧ stars l' = stars l ++ block_stars b
    ∧ homeStars l' = homeStars l ++ omap block_home [b]
    ∧ linkedStars l' = linkedStars l ++ omap block_linked [b]
    ∧ locals_rand l' = locals_rand l.
Proof.
  intros Hloc. unfold star_loop_body.
  destruct (instantiate_run isCustom starNames loc l) as (star & service & Hrun).
  rewrite bind_run, Hrun. destruct (loc_homeStar loc) eqn:Hh.
  - destruct (Hloc Hh) as [locations Hsome]. rewrite Hsome.
    destruct (link_loop_run isCustom starNames locations []
                (mkLocals (stars l ++ [star]) (homeStars l) (linkedStars l)
                   (S (starNamesIndex l)) service (locals_rand l)))
      as (sats & l' & Hloop & Hstars & Hlen & Hhome & Hlinked & Hr).
    rewrite bind_run, Hloop. simpl in *.
    exists (star, Some sats). eexists. split; [reflexivity|]. simpl.
    unfold block_fits, block_stars, block_home, block_linked. simpl.
    rewrite Hsome, Hstars, Hhome, Hlinked, Hr, <- app_assoc. simpl. done.
  - exists (star, None). eexists. split; [reflexivity|]. simpl.
    unfold block_fits, block_stars, block_home, block_linked. simpl.
    by rewrite !app_nil_r.
Qed.

Lemma star_loop_run isCustom starNames locations :
  Forall has_satellites locations →
  ∀ done blocks l, assembled done blocks l →
  ∃ blocks' l',
    for_of locations (star_loop_body isCustom starNames) l = (Return (), l')
    ∧ assembled (done ++ locations) (blocks ++ blocks') l'
    ∧ locals_rand l' = locals_rand l.
Proof.
  induction 1 as [|loc rest Hloc Hrest IH]; intros done blocks l Hl.
  - exists [], l. by rewrite !app_nil_r.
  - destruct Hl as (Hfit & Hstars & Hhome & Hlinked).
    destruct (star_loop_body_run isCustom starNames loc l Hloc)
      as (b & l1 & Hrun & Hb & Hstars1 & Hhome1 & Hlinked1 & Hr1).
    destruct (IH (done ++ [loc]) (blocks ++ [b]) l1) as (blocks' & l' & Hloop & Hl' & Hr').
    { split; [|split; [|split]].
      - apply Forall2_app; [done|]. by constructor.
      - rewrite Hstars1, Hstars, bind_app. simpl. by rewrite app_nil_r.
      - by rewrite Hhome1, Hhome, omap_app.
      - by rewrite Hlinked1, Hlinked, omap_app. }
    exists (b :: blocks'), l'. split.
    + simpl. by rewrite bind_run, Hrun.
    + rewrite <- !app_assoc in Hl'. simpl in Hl'. split; [done|congruence].
Qed.

Lemma assembled_groups_aligned primaries blocks l :
  assembled primaries blocks l →
  length (homeStars l) = length (linkedStars l)
  ∧ (∀ id, id ∈ homeStars l → id ∈ _id <$> stars l)
  ∧ (∀ group id, group ∈ linkedStars l → id ∈ group → id ∈ _id <$> stars l).
Proof.
  intros (_ & -> & -> & ->). split; [|split].
  - induction blocks as [|[s [sats|]] blocks IH]; simpl; auto.
  - intros id Hid. apply list_elem_of_omap in Hid as ([s sats] & Hb & Hs).
    unfold block_home in Hs. simpl in Hs. destruct sats as [sats|]; [|done].
    inversion Hs; subst. apply list_elem_of_fmap_2, list_elem_of_bind.
    exists (s, Some sats). split; [|done]. apply list_elem_of_here.
  - intros group id Hg Hid.
    apply list_elem_of_omap in Hg as ([s sats] & Hb & Hs).
    unfold block_linked in Hs. simpl in Hs. destruct sats as [sats|]; [|done].
    inversion Hs; subst. apply list_elem_of_fmap in Hid as (sat & -> & Hsat).
    apply list_elem_of_fmap_2, list_elem_of_bind.
    exists (s, Some sats). split; [|done]. by apply list_elem_of_further.
Qed.

(** The shape of what [generateStars] returns.  For a supported
    topology whose home locations carry their satellites, [generateStars]
    returns; its stars are one block per primary location, in order,
    each home star directly followed by its satellites; [homeStars] lists
    the ids of the home stars and [linkedStars] the ids of the satellites
    of each, in the same order.  So the two are equally long, and every
    id in either is the id of a star in [stars]. *)
Theorem generateStars_groups_aligned (rand : RandomGen) (service : StarService)
    (game : Game) (starCount : nat) (playerLimit : Z)
    (customJSON customSeed : option string) :
  supported (galaxyType game) →
  let primaries :=
    filter (λ l, negb (linked l))
      (locations_of rand service game starCount playerLimit customJSON customSeed) in
  Forall has_satellites primaries →
  ∃ result l' blocks,
    generateStars rand service game starCount playerLimit customJSON customSeed
    = (Return result, l')
    ∧ Forall2 block_fits primaries blocks
    ∧ result_stars result = blocks ≫= block_stars
    ∧ result_homeStars result = omap block_home blocks
    ∧ result_linkedStars result = omap block_linked blocks
    ∧ length (result_homeStars result) = length (result_linkedStars result)
    ∧ (∀ id, id ∈ result_homeStars result → id ∈ _id <$> result_stars result)
    ∧ (∀ group id, group ∈ result_linkedStars result → id ∈ group →
         id ∈ _id <$> result_stars result).
Proof.
  intros Ht primaries Hall. subst primaries. unfold locations_of in Hall.
  unfold generateStars, generateStars_body.
  destruct (select_locations_supported game starCount playerLimit customJSON
              customSeed (mkLocals [] [] [] 0 service rand) Ht)
    as (locations & l1 & Hsel & Hstars & Hidx).
  unfold locations_of. rewrite Hsel in *. simpl in Hall. rewrite bind_run, Hsel.
  assert (assembled [] [] l1) as Hl1.
  { assert (homeStars l1 = [] ∧ linkedStars l1 = []) as [Hh Hl].
    { unfold select_locations in Hsel.
      repeat (destruct (String.eqb _ _); [by inversion Hsel|]).
      destruct (String.eqb _ _).
      - destruct (irregular_generateLocations _ _ _ _ _ _). by inversion Hsel.
      - destruct (String.eqb _ _); by inversion Hsel. }
    split; [constructor|]. by rewrite Hstars, Hh, Hl. }
  destruct (star_loop_run (String.eqb (galaxyType game) "custom")
              (getRandomStarNames starCount) _ Hall [] [] l1 Hl1)
    as (blocks & l' & Hloop & Hl' & _).
  rewrite bind_run, Hloop. simpl in Hl'.
  destruct (assembled_groups_aligned _ _ _ Hl') as (Hlen & Hhome & Hlinked).
  destruct Hl' as (Hfit & Hs & Hh & Hl).
  exists (mkAssemblyResult (stars l') (homeStars l') (linkedStars l')), l', blocks.
  done.
Qed.
End AssemblerStructure.

Section AssemblerEdges.
Context `{Collaborators}.

Lemma select_locations_starts_clean game starCount playerLimit customJSON customSeed
    service rand locations l1 :
  select_locations game starCount playerLimit customJSON customSeed
    (mkLocals [] [] [] 0 service rand) = (Return locations, l1) →
  assembled [] [] l1.
Proof.
  intros Hsel. unfold select_locations in Hsel.
  assert (stars l1 = [] ∧ homeStars l1 = [] ∧ linkedStars l1 = []) as (Hs & Hh & Hl).
  { repeat (destruct (String.eqb _ _); [by inversion Hsel|]).
    destruct (String.eqb _ _).
    - destruct (irregular_generateLocations _ _ _ _ _ _). by inversion Hsel.
    - destruct (String.eqb _ _); by inversion Hsel. }
  split; [constructor|]. by rewrite Hs, Hh, Hl.
Qed.

(** A home location without [linkedLocations] stops [generateStars].
    Let the primaries be [before], then a home location [home] that
    carries no [linkedLocations], then [after].  [generateStars] makes the
    blocks of [before] and the star of [home], and then throws the
    [TypeError] of iterating [undefined]: at that moment the home star is
    in [stars] but not in [homeStars], and nothing has been made for
    [after]. *)
Theorem home_without_satellites_throws (rand : RandomGen) (service : StarService)
    (game : Game) (starCount : nat) (playerLimit : Z)
    (customJSON customSeed : option string)
    (before after : list StarLocation) (home : StarLocation) :
  supported (galaxyType game) →
  filter (λ l, negb (linked l))
    (locations_of rand service game starCount playerLimit customJSON customSeed)
  = before ++ home :: after →
  Forall has_satellites before →
  loc_homeStar home = true → linkedLocations home = None →
  ∃ l' blocks star,
    generateStars rand service game starCount playerLimit customJSON customSeed
    = (Throw TypeError, l')
    ∧ Forall2 block_fits before blocks
    ∧ stars l' = (blocks ≫= block_stars) ++ [star]
    ∧ homeStars l' = omap block_home blocks
    ∧ linkedStars l' = omap block_linked blocks.
Proof.
  intros Ht Hsplit Hbefore Hhome Hnone. unfold locations_of in Hsplit.
  unfold generateStars, generateStars_body.
  destruct (select_locations_supported game starCount playerLimit customJSON
              customSeed (mkLocals [] [] [] 0 service rand) Ht)
    as (locations & l1 & Hsel & _).
  rewrite Hsel in Hsplit. simpl in Hsplit. rewrite bind_run, Hsel, Hsplit.
  pose proof (select_locations_starts_clean _ _ _ _ _ _ _ _ _ Hsel) as Hl1.
  destruct (star_loop_run (String.eqb (galaxyType game) "custom")
              (getRandomStarNames starCount) _ Hbefore [] [] l1 Hl1)
    as (blocks & l2 & Hloop & (Hfit & Hs & Hh & Hl) & _).
  destruct (instantiate_run (String.eqb (galaxyType game) "custom")
              (getRandomStarNames starCount) home l2) as (star & service' & Hrun).
  eexists _, blocks, star. split.
  - rewrite bind_run, for_of_app, bind_run, Hloop. simpl.
    rewrite bind_run. unfold star_loop_body at 1.
    rewrite bind_run, Hrun, Hhome, Hnone. reflexivity.
  - simpl in *. by rewrite Hs.
Qed.

Lemma star_loop_body_keeps_rand isCustom starNames loc l o l' :
  star_loop_body isCustom starNames loc l = (o, l') →
  locals_rand l' = locals_rand l.
Proof.
  unfold star_loop_body.
  destruct (instantiate_run isCustom starNames loc l) as (star & service & Hrun).
  rewrite bind_run, Hrun. destruct (loc_homeStar loc).
  - destruct (linkedLocations loc) as [locations|]; [|by inversion 1].
    destruct (link_loop_run isCustom starNames locations []
                (mkLocals (stars l ++ [star]) (homeStars l) (linkedStars l)
                   (S (starNamesIndex l)) service (locals_rand l)))
      as (sats & l2 & Hloop & _ & _ & _ & _ & Hr).
    rewrite bind_run, Hloop. inversion 1; subst. simpl. exact Hr.
  - by inversion 1.
Qed.

Lemma star_loop_keeps_rand isCustom starNames locations l o l' :
  for_of locations (star_loop_body isCustom starNames) l = (o, l') →
  locals_rand l' = locals_rand l.
Proof.
  revert l. induction locations as [|loc rest IH]; intros l; simpl.
  - by inversion 1.
  - rewrite bind_run.
    destruct (star_loop_body isCustom starNames loc l) as [[[]|e] l1] eqn:E.
    + intros Hrest. rewrite (IH _ Hrest). by eapply star_loop_body_keeps_rand.
    + inversion 1; subst. by eapply star_loop_body_keeps_rand.
Qed.

Lemma select_locations_rand game starCount playerLimit customJSON customSeed l o l' :
  select_locations game starCount playerLimit customJSON customSeed l = (o, l') →
  locals_rand l'
  = if String.eqb (galaxyType game) "irregular"
    then (irregular_generateLocations (locals_rand l) game starCount
            (resourceDistribution game) playerLimit customSeed).2
    else locals_rand l.
Proof.
  unfold select_locations.
  destruct (String.eqb_spec (galaxyType game) "irregular") as [Heq|Hne].
  - rewrite Heq. simpl.
    destruct (irregular_generateLocations _ _ _ _ _ _). by inversion 1.
  - repeat match goal with
    | |- context [String.eqb (galaxyType game) ?t] =>
        destruct (String.eqb_spec (galaxyType game) t);
        [try contradiction; try (by inversion 1)|]
    end.
    by inversion 1.
Qed.

(** [generateStars] hands the seeded generator to the irregular map
    service only.  Whether it returns or throws, it leaves [rand] as the
    irregular map service left it when the topology is irregular, and
    as it received it for every other topology, supported or not. *)
Theorem generateStars_rand (rand : RandomGen) (service : StarService)
    (game : Game) (starCount : nat) (playerLimit : Z)
    (customJSON customSeed : option string) :
  locals_rand
    (generateStars rand service game starCount playerLimit customJSON customSeed).2
  = if String.eqb (galaxyType game) "irregular"
    then (irregular_generateLocations rand game starCount
            (resourceDistribution game) playerLimit customSeed).2
    else rand.
Proof.
  unfold generateStars, generateStars_body. rewrite bind_run.
  destruct (select_locations game starCount playerLimit customJSON customSeed
              (mkLocals [] [] [] 0 service rand)) as [[locations|e] l1] eqn:Hsel;
    apply select_locations_rand in Hsel; simpl in Hsel; rewrite <- Hsel; [|done].
  rewrite bind_run.
  destruct (for_of _ _ l1) as [[[]|e] l2] eqn:Hloop; simpl;
    by eapply star_loop_keeps_rand.
Qed.
End AssemblerEdges.

Section FurtherAssemblerExamples.
#[local] Existing Instance Sample.sample.

(** Ten stars asked of the sample collaborators: one home location with
    one satellite, then eight plain locations. *)
Lemma generateStars_groups_aligned_witness :
  ∃ result l' blocks,
    @generateStars Sample.sample 1%Z 0 (Sample.quiet "circular" 1) 10 1 None None
    = (Return result, l')
    ∧ result_stars result = blocks ≫= block_stars
    ∧ result_homeStars result = omap block_home blocks
    ∧ result_linkedStars result = omap block_linked blocks
    ∧ length (result_homeStars result) = length (result_linkedStars result).
Proof.
  destruct (@generateStars_groups_aligned Sample.sample 1%Z 0
              (Sample.quiet "circular" 1) 10 1 None None)
    as (result & l' & blocks & Hrun & _ & Hs & Hh & Hl & Hlen & _).
  - unfold supported. simpl. apply list_elem_of_here.
  - apply (bool_decide_unpack _). by vm_compute.
  - exists result, l', blocks.
    exact (conj Hrun (conj Hs (conj Hh (conj Hl Hlen)))).
Defined.

(** A custom galaxy whose second location is a home location without
    satellites: two stars have been made when the error is thrown, and
    no home star has been recorded. *)
Lemma home_without_satellites_throws_witness :
  ∃ l' blocks star,
    @generateStars orphaned 1%Z 0 (Sample.quiet "custom" 1) 3 1 None None
    = (Throw TypeError, l')
    ∧ Forall2 block_fits [Sample.plain 1] blocks
    ∧ @stars orphaned l' = (blocks ≫= block_stars) ++ [star]
    ∧ @homeStars orphaned l' = omap block_home blocks
    ∧ @linkedStars orphaned l' = omap block_linked blocks.
Proof.
  apply (@home_without_satellites_throws orphaned 1%Z 0 (Sample.quiet "custom" 1)
           3 1 None None [Sample.plain 1] [Sample.plain 2]
           (mkStarLocation 0 0 true false None
              (Some (mkNaturalResources 10 10 10)) None)).
  - unfold supported. simpl. do 5 apply list_elem_of_further. apply list_elem_of_here.
  - reflexivity.
  - constructor; [|constructor]. by intros ?.
  - reflexivity.
  - reflexivity.
Defined.
End FurtherAssemblerExamples.

(** ** The double arithmetic of the quotas *)

Lemma same_double_eq (a b : float) : same_double a b = true → a = b.
Proof.
  unfold same_double. intros Hs. apply Prim2SF_inj.
  destruct (Prim2SF a) as [s|s| |s m e], (Prim2SF b) as [t|t| |t n f];
    try discriminate; try reflexivity.
  - by apply Bool.eqb_prop in Hs as ->.
  - by apply Bool.eqb_prop in Hs as ->.
  - apply andb_prop in Hs as [Hs He]. apply andb_prop in Hs as [Hs Hm].
    apply Bool.eqb_prop in Hs as ->. apply Pos.eqb_eq in Hm as ->.
    by apply Z.eqb_eq in He as ->.
Qed.

(** The pool size is computed exactly. *)
Lemma pool_size_exact (len pc : nat) :
  len ≤ 200 → pc ≤ 32 →
  (Js.of_nat len - Js.of_Z (Z.of_nat pc))%float
  = Js.of_Z (Z.of_nat len - Z.of_nat pc).
Proof.
  intros Hlen Hpc. apply same_double_eq.
  assert (forallb (λ len, forallb (λ pc,
            same_double (Js.of_nat len - Js.of_Z (Z.of_nat pc))%float
              (Js.of_Z (Z.of_nat len - Z.of_nat pc)))
            (seq 0 33)) (seq 0 201) = true) as Hall by (by vm_compute).
  rewrite List.forallb_forall in Hall.
  specialize (Hall len). rewrite List.forallb_forall in Hall.
  apply Hall; apply List.in_seq; lia.
Qed.

Lemma quota_within_one (divide : float → float) (divisor n p : Z) :
  forallb (λ n, forallb (λ p, within_one divide divisor n p) (seqZ 0 101))
          (seqZ (-32) 233) = true →
  (-32 ≤ n ≤ 200)%Z → (0 ≤ p ≤ 100)%Z →
  let c := Js.floor (divide (Js.of_Z n) * Js.of_Z p)%float in
  (n * p / divisor - 1 ≤ c ≤ n * p / divisor)%Z.
Proof.
  intros Hall Hn Hp c. rewrite List.forallb_forall in Hall.
  specialize (Hall n). rewrite List.forallb_forall in Hall.
  assert (within_one divide divisor n p = true) as Hw.
  { apply Hall; apply list_elem_of_In, elem_of_seqZ; lia. }
  unfold within_one in Hw. fold c in Hw.
  apply andb_prop in Hw as [H1 H2]. lia.
Qed.

(** How far the double arithmetic can take a quota from the exact one.
    For up to 200 stars, up to 32 players and a percentage up to 100, the
    count of a single-star pass is the exact floor of
    [(stars.length - playerCount) * percentage / 100] or one less, and
    the pair count of the wormhole pass is the exact floor of
    [(stars.length - playerCount) * percentage / 200] or one less; both
    do fall one short, at 60 stars, 2 players and 50 percent
    respectively 118 stars, 2 players and 50 percent. *)
Theorem quotas_within_one (len pc p : nat) :
  len ≤ 200 → pc ≤ 32 → p ≤ 100 →
  let pool := (Z.of_nat len - Z.of_nat pc)%Z in
  (pool * Z.of_nat p / 100 - 1
     ≤ featureCount len (Z.of_nat pc) (Z.of_nat p) ≤ pool * Z.of_nat p / 100)%Z
  ∧ (pool * Z.of_nat p / 200 - 1
     ≤ wormHolePairCount len (Z.of_nat pc) (Z.of_nat p) ≤ pool * Z.of_nat p / 200)%Z
  ∧ featureCount 60 2 50 = (58 * 50 / 100 - 1)%Z
  ∧ wormHolePairCount 118 2 50 = (116 * 50 / 200 - 1)%Z.
Proof.
  intros Hlen Hpc Hp pool. unfold featureCount, wormHolePairCount.
  rewrite (pool_size_exact len pc Hlen Hpc). fold pool.
  split; [|split; [|by vm_compute]].
  - apply (quota_within_one (λ d, d / 100)%float 100 pool (Z.of_nat p));
      [by vm_compute|unfold pool; lia..].
  - apply (quota_within_one (λ d, d / 2 / 100)%float 200 pool (Z.of_nat p));
      [by vm_compute|unfold pool; lia..].
Qed.

(** The scenario of 100 stars, 4 players and 10 percent. *)
Lemma quotas_within_one_witness :
  (96 * 10 / 100 - 1 ≤ featureCount 100 4 10 ≤ 96 * 10 / 100)%Z
  ∧ (96 * 10 / 200 - 1 ≤ wormHolePairCount 100 4 10 ≤ 96 * 10 / 200)%Z.
Proof.
  destruct (quotas_within_one 100 4 10) as (Hf & Hw & _); [lia..|].
  exact (conj Hf Hw).
Defined.

(** ** Where the wormholes lead *)

Section WormHoleEnds.
Context `{Collaborators}.

Lemma ends_kept_refl : Reflexive ends_kept.
Proof. intros st Hst. exact Hst. Qed.

Lemma ends_kept_trans : Transitive ends_kept.
Proof. intros a b c Hab Hbc Ha. apply Hbc, Hab, Ha. Qed.

Lemma keeps_ends before after :
  length after = length before →
  (∀ r s', after !! r = Some s' →
     ∃ s, before !! r = Some s ∧ _id s' = _id s
          ∧ wormHoleToStarId s' = wormHoleToStarId s) →
  ends_kept before after.
Proof.
  intros Hlen Hkeep Hc a sa' v Ha Hw.
  destruct (Hkeep a sa' Ha) as (sa & Hsa & _ & Hwa). rewrite Hwa in Hw.
  pose proof (Hc a sa v Hsa Hw) as Hv.
  apply list_elem_of_fmap in Hv as (sb & -> & Hsb).
  apply list_elem_of_lookup in Hsb as (b & Hb).
  destruct (lookup_lt_is_Some_2 after b) as [sb' Hb'].
  { rewrite Hlen. by eapply lookup_lt_Some. }
  destruct (Hkeep b sb' Hb') as (sb0 & Hb0 & Hid & _).
  assert (sb0 = sb) as -> by congruence. rewrite <- Hid.
  apply list_elem_of_fmap. exists sb'. split; [done|].
  by eapply list_elem_of_lookup_2.
Qed.

Lemma pass_ends_kept f game pc p :
  shuffle_permutes → preserves ends_kept (pass_of f game pc p).
Proof.
  intros Hsh w o w' Hrun.
  destruct (pass_run f game pc p w Hsh) as (w1 & Hrun1 & Hrw).
  rewrite Hrun in Hrun1. inversion Hrun1; subst.
  apply keeps_ends; [apply Hrw|]. by eapply rewritten_keeps.
Qed.

Lemma alter_wormHole_ids v r (st : list Star) :
  _id <$> alter (set_wormHoleToStarId v) r st = _id <$> st.
Proof.
  erewrite (list_fmap_alter _id _ id); [by rewrite list_alter_id|].
  by apply Forall_forall.
Qed.

(** One write of the loop: the id written is the id of a star. *)
Lemma alter_wormHole_ends v r (st : list Star) :
  v ∈ (_id <$> st) → ends_kept st (alter (set_wormHoleToStarId (Some v)) r st).
Proof.
  intros Hv Hc a sa u Ha Hu. rewrite alter_wormHole_ids.
  destruct (decide (a = r)) as [->|Hne].
  - rewrite list_lookup_alter_eq in Ha.
    destruct (st !! r) as [s|]; [|done]. simpl in Ha.
    inversion Ha; subst. simpl in Hu. by inversion Hu; subst.
  - rewrite list_lookup_alter_ne in Ha by done. by eapply Hc.
Qed.

Lemma id_of_star r s (st : list Star) : st !! r = Some s → _id s ∈ (_id <$> st).
Proof.
  intros Hs. apply list_elem_of_fmap. exists s. split; [done|].
  by eapply list_elem_of_lookup_2.
Qed.

Lemma pair_body_ends_kept ws i : preserves ends_kept (pair_body ws i).
Proof.
  intros w o w'. unfold pair_body.
  destruct (ws !! (i * 2)) as [a|], (ws !! (i * 2 + 1)) as [b|];
    try (intros [= <- <-]; apply ends_kept_refl).
  unfold read, write, mbind, M_bind. cbn [galaxy_stars].
  destruct (galaxy_stars w !! b) as [sb|] eqn:Hb;
    [|intros [= <- <-]; apply ends_kept_refl].
  cbn [galaxy_stars]. rewrite list_lookup_alter_eq.
  destruct (galaxy_stars w !! a) as [sa|] eqn:Ha; cbn [fmap option_fmap option_map];
    intros [= <- <-]; cbn [galaxy_stars].
  - apply (ends_kept_trans _
             (alter (set_wormHoleToStarId (Some (_id sb))) a (galaxy_stars w))).
    + apply alter_wormHole_ends. by eapply id_of_star.
    + apply alter_wormHole_ends. rewrite alter_wormHole_ids.
      replace (_id (set_wormHoleToStarId (Some (_id sb)) sa)) with (_id sa)
        by (by destruct sa).
      by eapply id_of_star.
  - apply alter_wormHole_ends. by eapply id_of_star.
Qed.

Lemma for_of_preserves {A} R (l : list A) (body : A → M World unit) :
  Reflexive R → Transitive R →
  (∀ a, preserves R (body a)) → preserves R (for_of l body).
Proof.
  intros HR HT Hbody. induction l as [|a l IH]; simpl.
  - intros w o w' [= <- <-]. reflexivity.
  - by apply preserves_bind.
Qed.

Lemma wormHoles_ends_kept game pc p :
  preserves ends_kept (_generateWormHoles game pc p).
Proof.
  intros w o w' Hrun. rewrite generateWormHoles_run in Hrun.
  by apply (for_of_preserves ends_kept _ _ ends_kept_refl ends_kept_trans
              (pair_body_ends_kept _) _ _ _ Hrun).
Qed.

(** Where the wormholes of a galaxy lead.  Start [generateTerrain] on
    stars with distinct ids and no wormholes.  Whether it returns or
    throws, a star that holds a wormhole afterwards is not a home star
    and was not dead before the run, and its wormhole leads to another
    star of the galaxy, which leads back to it, is not a home star
    either and was not dead before the run. *)
Theorem wormholes_join_eligible_stars (game : Game) (w w' : World) (o : Outcome unit) :
  shuffle_permutes →
  distinct_ids (galaxy_stars w) →
  Forall (λ s, wormHoleToStarId s = None) (galaxy_stars w) →
  generateTerrain game w = (o, w') →
  ∀ a sa sa' v,
    galaxy_stars w !! a = Some sa → galaxy_stars w' !! a = Some sa' →
    wormHoleToStarId sa' = Some v →
    homeStar sa = false ∧ isDeadStar sa = false
    ∧ ∃ b sb sb',
        a ≠ b
        ∧ galaxy_stars w !! b = Some sb ∧ galaxy_stars w' !! b = Some sb'
        ∧ _id sb' = v ∧ wormHoleToStarId sb' = Some (_id sa')
        ∧ homeStar sb = false ∧ isDeadStar sb = false.
Proof.
  intros Hsh Hd Hnone Hrun.
  assert (home_untouched (galaxy_stars w) (galaxy_stars w')) as Hhome.
  { eapply (generateTerrain_preserves home_untouched game);
      [apply home_untouched_refl|apply home_untouched_trans| | |exact Hrun].
    - intros f pc p. by apply pass_home_untouched.
    - intros pc p. by apply wormHoles_home_untouched. }
  assert (dead_untouched (galaxy_stars w) (galaxy_stars w')) as Hdead.
  { eapply (generateTerrain_preserves dead_untouched game);
      [apply dead_untouched_refl|apply dead_untouched_trans| | |exact Hrun].
    - intros f pc p. by apply pass_dead_untouched.
    - intros pc p. by apply wormHoles_dead_untouched. }
  assert (galaxy_grown (galaxy_stars w) (galaxy_stars w')) as [Hlen _].
  { eapply (generateTerrain_preserves galaxy_grown game);
      [apply galaxy_grown_refl|apply galaxy_grown_trans| | |exact Hrun].
    - intros f pc p. by apply pass_galaxy_grown.
    - intros pc p. by apply wormHoles_galaxy_grown. }
  assert (wormholes_mutual (galaxy_stars w')) as Hmut.
  { eapply (generateTerrain_preserves pairing_kept game);
      [apply pairing_kept_refl|apply pairing_kept_trans| | |exact Hrun|].
    - intros f pc p. by apply pass_pairing_kept.
    - intros pc p. by apply wormHoles_pairing_kept.
    - split; [done|]. by apply unpaired_mutual. }
  assert (wormholes_closed (galaxy_stars w')) as Hclosed.
  { eapply (generateTerrain_preserves ends_kept game);
      [apply ends_kept_refl|apply ends_kept_trans| | |exact Hrun|].
    - intros f pc p. by apply pass_ends_kept.
    - intros pc p. by apply wormHoles_ends_kept.
    - intros r s v Hs Hv. rewrite Forall_lookup in Hnone.
      by rewrite (Hnone r s Hs) in Hv. }
  assert (∀ r s s', galaxy_stars w !! r = Some s → galaxy_stars w' !! r = Some s' →
            is_Some (wormHoleToStarId s') →
            homeStar s = false ∧ isDeadStar s = false) as Heligible.
  { intros r s s' Hs Hs' [u Hu]. rewrite Forall_lookup in Hnone.
    pose proof (Hnone r s Hs) as Hn. split.
    - destruct (homeStar s) eqn:E; [|done].
      rewrite (Hhome r s Hs E) in Hs'. congruence.
    - destruct (isDeadStar s) eqn:E; [|done].
      rewrite (Hdead r s Hs E) in Hs'. congruence. }
  intros a sa sa' v Ha Ha' Hv.
  destruct (Heligible a sa sa' Ha Ha') as [Hh Hdd]; [by eexists|].
  split; [done|]. split; [done|].
  pose proof (Hclosed a sa' v Ha' Hv) as Hin.
  apply list_elem_of_fmap in Hin as (sb' & -> & Hsb').
  apply list_elem_of_lookup in Hsb' as (b & Hb').
  destruct (lookup_lt_is_Some_2 (galaxy_stars w) b) as [sb Hb].
  { rewrite <- Hlen. by eapply lookup_lt_Some. }
  destruct (Hmut a b sa' sb' Ha' Hb' Hv) as [Hback Hab].
  destruct (Heligible b sb sb' Hb Hb') as [Hhb Hdb]; [by eexists|].
  by exists b, sb, sb'.
Qed.
End WormHoleEnds.

Section WormHoleEndsExample.
#[local] Existing Instance Sample.sample.

Lemma galaxy_no_wormholes homes n :
  Forall (λ s, wormHoleToStarId s = None) (galaxy homes n).
Proof.
  apply Forall_forall. intros s Hs.
  by apply list_elem_of_fmap in Hs as (i & -> & _).
Qed.

(** Six stars, two of them home stars, half of the rest paired: the
    wormhole of the fourth star. *)
Lemma wormholes_join_eligible_stars_witness :
  ∃ s' v,
    galaxy_stars (generateTerrain holes (Sample.world 1 1 (galaxy 2 6))).2 !! 3 = Some s'
    ∧ wormHoleToStarId s' = Some v
    ∧ ∃ b sb sb',
        3 ≠ b
        ∧ galaxy 2 6 !! b = Some sb
        ∧ galaxy_stars (generateTerrain holes (Sample.world 1 1 (galaxy 2 6))).2 !! b
          = Some sb'
        ∧ _id sb' = v ∧ wormHoleToStarId sb' = Some (_id s')
        ∧ homeStar sb = false ∧ isDeadStar sb = false.
Proof.
  destruct (galaxy_stars (generateTerrain holes (Sample.world 1 1 (galaxy 2 6))).2 !! 3)
    as [s'|] eqn:Hs'; [|by vm_compute in Hs'].
  destruct (wormHoleToStarId s') as [v|] eqn:Hv.
  - exists s', v. split; [done|]. split; [done|].
    exact (proj2 (proj2
      (wormholes_join_eligible_stars holes (Sample.world 1 1 (galaxy 2 6)) _ _
         sample_shuffle_permutes (galaxy_distinct_ids 2 6) (galaxy_no_wormholes 2 6)
         (surjective_run _ _) 3 (Sample.star 3 false 10) s' v eq_refl Hs' Hv))).
  - exfalso. revert Hv. vm_compute in Hs'. injection Hs' as <-. by vm_compute.
Defined.
End WormHoleEndsExample.

(** * Properties of the request validators *)

Section ValidatorProperties.
Import Validate.
Context `{Host}.

Lemma throw_failed_throws {A} expected v :
  ∃ e, @throw_failed _ A expected v = Throw e.
Proof. unfold throw_failed. destruct (failed expected v); by eexists. Qed.

Lemma throw_failed_never_returns {A} expected v (r : A) :
  throw_failed expected v ≠ Return r.
Proof. unfold throw_failed. by destruct (failed expected v). Qed.

(** A goal whose computation has thrown cannot have returned. *)
Ltac rejected :=
  let Hr := fresh in
  intros Hr; exfalso; revert Hr;
  unfold throw_failed, mbind, Outcome_bind;
  repeat match goal with
         | |- context [failed ?x ?y] => destruct (failed x y)
         end;
  done.

Lemma throw_failed_nullish {A} expected v :
  v = JNull ∨ v = JUndefined → @throw_failed _ A expected v = Throw TypeError.
Proof. by intros [-> | ->]. Qed.

Lemma primitive_nullish t v :
  v = JNull ∨ v = JUndefined → primitive t v = Throw TypeError.
Proof. by intros [-> | ->]. Qed.

(** A missing value is not reported as a [ValidationError].  On [null]
    and on [undefined] the validators that reject through [failed] throw
    the [TypeError] of [value.toString()]: [primitive] for every type
    name, [date], [array], [stringEnumeration], [numberAdv], [objectId],
    and [just] unless the value is the one it asks for.  [withDefault]
    returns its default without running its validator. *)
Theorem missing_value_throws_TypeError {A} (v value : JsValue) (t : String.string)
    (validator : Validator A) (defaultValue : A) (members : list String.string)
    (props : NumberValidationProps) :
  v = JNull ∨ v = JUndefined →
  primitive t v = Throw TypeError
  ∧ date v = Throw TypeError
  ∧ array validator v = Throw TypeError
  ∧ stringEnumeration members v = Throw TypeError
  ∧ numberAdv props v = Throw TypeError
  ∧ objectId v = Throw TypeError
  ∧ (strict_equal v value = false → just value v = Throw TypeError)
  ∧ withDefault defaultValue validator v = Return defaultValue.
Proof.
  intros Hv. repeat split.
  - by apply primitive_nullish.
  - by destruct Hv as [-> | ->].
  - by destruct Hv as [-> | ->].
  - unfold stringEnumeration, string. by rewrite (primitive_nullish _ _ Hv).
  - unfold numberAdv, number. by rewrite (primitive_nullish _ _ Hv).
  - unfold objectId, map, string. by rewrite (primitive_nullish _ _ Hv).
  - intros Hne. unfold just. rewrite Hne. by apply throw_failed_nullish.
  - by destruct Hv as [-> | ->].
Qed.

Lemma substring_from_short start text :
  String.length text ≤ start → substring_from start text = EmptyString.
Proof.
  revert text. induction start as [|n IH]; intros [|c text]; simpl; try done; try lia.
  intros Hlen. apply IH. lia.
Qed.

(** The text of a rejected value never reaches the message when it is
    at most 1000 characters long: [substring(1000)] keeps what follows
    the first 1000 characters, so the message reads
    "Expected <expected>, but got:  <type>". *)
Theorem failed_omits_short_values (expected text : String.string) (v : JsValue) :
  toString v = Return text → String.length text ≤ 1000 →
  failed expected v
  = Return (ValidationError
              ("Expected " +:+ expected +:+ ", but got:  " +:+ typeof v)).
Proof.
  intros Htext Hlen. unfold failed. rewrite Htext.
  cbn [mbind Outcome_bind mret Outcome_ret].
  by rewrite (substring_from_short _ _ Hlen).
Qed.

Lemma map_items_returns_iff {A} (validator : Validator A) items rs :
  map_items validator items = Return rs
  ↔ Forall2 (λ item r, validator item = Return r) items rs.
Proof.
  revert rs. induction items as [|item items IH]; intros rs; simpl.
  - split; [by intros [= <-]; constructor|by intros ->%Forall2_nil_inv_l].
  - unfold mbind, Outcome_bind, mret, Outcome_ret. split.
    + destruct (validator item) as [a|e] eqn:Ha; [|done].
      destruct (map_items validator items) as [others|e] eqn:Ho; [|done].
      intros [= <-]. constructor; [done|]. by apply IH.
    + intros (a & others & Ha & Ho & ->)%Forall2_cons_inv_l.
      rewrite Ha. apply IH in Ho. by rewrite Ho.
Qed.

(** What [array] lets through.  [array(validator)] returns exactly on an
    array all of whose items the validator lets through, and returns
    their results, one per item and in the order of the items. *)
Theorem array_returns_iff {A} (validator : Validator A) (v : JsValue) (rs : list A) :
  array validator v = Return rs
  ↔ ∃ items, v = JArray items
      ∧ Forall2 (λ item r, validator item = Return r) items rs.
Proof.
  split.
  - destruct v as [| |b|n|z|s|f|items|fields]; simpl; try rejected.
    intros Hr. exists items. split; [done|]. by apply map_items_returns_iff.
  - intros (items & -> & Hall). by apply map_items_returns_iff.
Qed.

(** [array] stops at the first item its validator rejects, with the
    error of that item. *)
Theorem array_stops_at_first_failure {A} (validator : Validator A)
    (before after : list JsValue) (item : JsValue) (e : JsError) :
  Forall (λ x, ∃ r, validator x = Return r) before →
  validator item = Throw e →
  array validator (JArray (before ++ item :: after)) = Throw e.
Proof.
  intros Hbefore Hitem. simpl. induction Hbefore as [|x l [r Hr] _ IH]; simpl.
  - by rewrite Hitem.
  - rewrite Hr. cbn [mbind Outcome_bind]. by rewrite IH.
Qed.

Lemma object_loop_returns_iff {A} (fields : list (String.string * Validator A))
    (v : JsValue) (n0 n : list (String.string * A)) :
  v ≠ JNull → v ≠ JUndefined →
  object_loop fields v n0 = Return n
  ↔ ∃ rs, n = n0 ++ rs
      ∧ Forall2 (λ f r, r.1 = f.1 ∧ f.2 (property v f.1) = Return r.2) fields rs.
Proof.
  intros Hnull Hundef. revert n0. induction fields as [|[key validator] fields IH];
    intros n0; simpl.
  - split.
    + intros [= <-]. exists []. split; [by rewrite app_nil_r|constructor].
    + intros (rs & -> & ->%Forall2_nil_inv_l). by rewrite app_nil_r.
  - assert (get v key = Return (property v key)) as -> by (by destruct v).
    cbn [mbind Outcome_bind]. split.
    + destruct (validator (property v key)) as [a|e] eqn:Ha; [|done].
      intros (rs & -> & Hrs)%IH. exists ((key, a) :: rs).
      split; [by rewrite <- app_assoc|]. by constructor.
    + intros (rs & -> & ([k a] & rs' & [Hk Ha] & Hrs & ->)%Forall2_cons_inv_l).
      simpl in Hk, Ha. subst k. rewrite Ha. apply IH. exists rs'.
      split; [by rewrite <- app_assoc|done].
Qed.

(** What [object] lets through.  On a value of type "object" other than
    [null], [object(objValidator)] returns exactly when every field
    validator lets through what the value holds under its key, and the
    object returned holds one member per field, under the key of the
    field and in the order of the fields. *)
Theorem object_returns_iff {A} (objValidator : list (String.string * Validator A))
    (v : JsValue) (n : list (String.string * A)) :
  typeof v = "object" → v ≠ JNull →
  object objValidator v = Return n
  ↔ Forall2 (λ f r, r.1 = f.1 ∧ f.2 (property v f.1) = Return r.2) objValidator n.
Proof.
  intros Htype Hnull. unfold object. rewrite Htype. simpl.
  rewrite object_loop_returns_iff; [|done|by intros ->]. split.
  - by intros (rs & -> & Hrs).
  - intros Hn. by exists n.
Qed.

Lemma object_loop_first_failure {A} (before after : list (String.string * Validator A))
    (key : String.string) (validator : Validator A) (v : JsValue) (e : JsError) n0 :
  v ≠ JNull → v ≠ JUndefined →
  Forall (λ f, ∃ r, f.2 (property v f.1) = Return r) before →
  validator (property v key) = Throw e →
  object_loop (before ++ (key, validator) :: after) v n0
  = Throw (ValidationError ("Error in field " +:+ key +:+ ": " +:+ error_message e)).
Proof.
  intros Hnull Hundef Hbefore Hfield. revert n0.
  induction Hbefore as [|[k val] l [r Hr] _ IH]; intros n0; simpl.
  - assert (get v key = Return (property v key)) as -> by (by destruct v).
    cbn [mbind Outcome_bind]. by rewrite Hfield.
  - assert (get v k = Return (property v k)) as -> by (by destruct v).
    cbn [mbind Outcome_bind]. simpl in Hr. rewrite Hr. apply IH.
Qed.

(** [object] stops at the first field whose validator rejects, and
    throws a [ValidationError] that names the field and carries the
    message of what the validator threw. *)
Theorem object_names_first_bad_field {A}
    (before after : list (String.string * Validator A))
    (key : String.string) (validator : Validator A) (v : JsValue) (e : JsError) :
  typeof v = "object" → v ≠ JNull →
  Forall (λ f, ∃ r, f.2 (property v f.1) = Return r) before →
  validator (property v key) = Throw e →
  object (before ++ (key, validator) :: after) v
  = Throw (ValidationError ("Error in field " +:+ key +:+ ": " +:+ error_message e)).
Proof.
  intros Htype Hnull Hbefore Hfield. unfold object. rewrite Htype. simpl.
  apply object_loop_first_failure; [done|by intros ->|done|done].
Qed.

Lemma record_loop_returns_iff {A} (validator : Validator A) (v : JsValue)
    (keys : list String.string) (res0 res : list (String.string * A)) :
  v ≠ JNull → v ≠ JUndefined →
  record_loop validator v keys res0 = Return res
  ↔ ∃ rs, res = res0 ++ rs
      ∧ Forall2 (λ key r, r.1 = key ∧ validator (property v key) = Return r.2) keys rs.
Proof.
  intros Hnull Hundef. revert res0. induction keys as [|key keys IH];
    intros res0; simpl.
  - split.
    + intros [= <-]. exists []. split; [by rewrite app_nil_r|constructor].
    + intros (rs & -> & ->%Forall2_nil_inv_l). by rewrite app_nil_r.
  - assert (get v key = Return (property v key)) as -> by (by destruct v).
    cbn [mbind Outcome_bind]. split.
    + destruct (validator (property v key)) as [a|e] eqn:Ha; [|done].
      intros (rs & -> & Hrs)%IH. exists ((key, a) :: rs).
      split; [by rewrite <- app_assoc|]. by constructor.
    + intros (rs & -> & ([k a] & rs' & [Hk Ha] & Hrs & ->)%Forall2_cons_inv_l).
      simpl in Hk, Ha. subst k. rewrite Ha. apply IH. exists rs'.
      split; [by rewrite <- app_assoc|done].
Qed.

(** What [record] lets through.  On a value of type "object" other than
    [null], [record(validator)] returns exactly when the validator lets
    through the member under every key the [for ... in] loop visits, and
    the record returned holds one member per key visited, under that key
    and in the order of the visit. *)
Theorem record_returns_iff {A} (validator : Validator A) (v : JsValue)
    (res : list (String.string * A)) :
  typeof v = "object" → v ≠ JNull →
  record validator v = Return res
  ↔ Forall2 (λ key r, r.1 = key ∧ validator (property v key) = Return r.2)
      (enumerable_keys v) res.
Proof.
  intros Htype Hnull. unfold record. rewrite Htype. simpl.
  rewrite record_loop_returns_iff; [|done|by intros ->].
  assert (keys_in v = enumerable_keys v) as -> by (by destruct v).
  split.
  - by intros (rs & -> & Hrs).
  - intros Hn. by exists res.
Qed.

(** [null] passes the check [typeof v !== "object"].  [record] lets
    [null] through as the empty record, whatever its validator;
    [object] lets it through when it has no field, and otherwise fails at
    its first field with the message of the [TypeError] of the read
    [v[key]].  [undefined] is stopped by the check, with a [TypeError]
    from [failed]; and [anyObject] rejects [null] in the same way. *)
Theorem null_passes_the_object_check {A} (validator : Validator A)
    (key : String.string) (rest : list (String.string * Validator A)) :
  record validator JNull = Return []
  ∧ object (A:=A) [] JNull = Return []
  ∧ object ((key, validator) :: rest) JNull
    = Throw (ValidationError
               ("Error in field " +:+ key +:+ ": " +:+ error_message TypeError))
  ∧ record validator JUndefined = Throw TypeError
  ∧ object ((key, validator) :: rest) JUndefined = Throw TypeError
  ∧ anyObject JNull = Throw TypeError.
Proof. done. Qed.

(** [or] is associative, and when it throws it throws what its second
    validator threw: the error of the first is lost. *)
Theorem or_associative {A} (a b c : Validator A) (v : JsValue) :
  or (or a b) c v = or a (or b c) v
  ∧ ∀ e, or a b v = Throw e → b v = Throw e ∧ ∃ e', a v = Throw e'.
Proof.
  unfold or. split.
  - by destruct (a v), (b v).
  - intros e. destruct (a v) as [r|e'] eqn:Ha; [done|]. intros Hb. by eauto.
Qed.

(** [andL(a, b)] runs [b] before [a]: it is [andR(b, a)], and
    [bind] with a binder that ignores the result of [b]; when both
    validators reject, [andL(a, b)] throws the error of [b] and
    [andR(a, b)] the error of [a]. *)
Theorem andL_runs_second_first {A B} (a : Validator A) (b : Validator B) (v : JsValue) :
  andL a b v = andR b a v
  ∧ andL a b v = bind (λ _, a) b v
  ∧ ∀ ea eb, a v = Throw ea → b v = Throw eb →
      andL a b v = Throw eb ∧ andR a b v = Throw ea.
Proof.
  unfold andL, andR, bind. split; [done|]. split; [done|].
  intros ea eb Ha Hb. by rewrite Ha, Hb.
Qed.

(** [named] turns whatever its validator throws, a [TypeError]
    included, into a [ValidationError] that starts with the name; what
    the validator returns it returns. *)
Theorem named_wraps_every_error {A} (name : String.string) (validator : Validator A)
    (v : JsValue) :
  (∀ r, named name validator v = Return r ↔ validator v = Return r)
  ∧ (∀ e, named name validator v = Throw e
       ↔ ∃ e', validator v = Throw e'
           ∧ e = ValidationError (name +:+ " validation failed: " +:+ error_toString e')).
Proof.
  unfold named. destruct (validator v) as [a|e']; split; intros x; split;
    try done; try (by intros (? & ? & ?)).
  - intros [= <-]. by exists e'.
  - by intros (? & [= <-] & ->).
Qed.

Lemma includes_iff (members : list String.string) (s : String.string) :
  includes members (JString s) = true ↔ s ∈ members.
Proof.
  unfold includes. rewrite existsb_exists, list_elem_of_In. split.
  - intros (m & Hm & Heq). simpl in Heq. by apply String.eqb_eq in Heq as ->.
  - intros Hs. exists s. split; [done|]. simpl. apply String.eqb_refl.
Qed.

(** What [stringEnumeration] lets through: exactly the strings that are
    among its members, unchanged. *)
Theorem stringEnumeration_returns_iff (members : list String.string) (v r : JsValue) :
  stringEnumeration members v = Return r
  ↔ ∃ s, v = JString s ∧ r = v ∧ s ∈ members.
Proof.
  unfold stringEnumeration, string, primitive. split.
  - destruct v as [| |b|n|z|s|f|items|fields]; simpl; try rejected.
    destruct (includes members (JString s)) eqn:Hin; [|rejected].
    intros [= <-]. exists s. by apply includes_iff in Hin.
  - intros (s & -> & -> & Hs%includes_iff). simpl. by rewrite Hs.
Qed.

Lemma Math_sign_minus_one (n : float) :
  (Math_sign n =? -1)%float = (n <? 0)%float.
Proof.
  unfold Math_sign. destruct (n <? 0)%float eqn:Hneg; [done|].
  destruct (0 <? n)%float; [done|].
  rewrite FloatAxioms.eqb_spec. rewrite FloatAxioms.ltb_spec in Hneg.
  change (Prim2SF 0) with (S754_zero false) in Hneg.
  change (Prim2SF (-1)) with (S754_finite true 4503599627370496 (-52)).
  by destruct (Prim2SF n) as [[]|[]| |[] m e].
Qed.

Lemma whole_not_negative (n : float) :
  Number_isInteger n = true →
  (n <? 0)%float = false ↔ (0 <=? n)%float = true.
Proof.
  unfold Number_isInteger. rewrite FloatAxioms.ltb_spec, FloatAxioms.leb_spec.
  change (Prim2SF 0) with (S754_zero false).
  by destruct (Prim2SF n) as [[]|[]| |[] m e].
Qed.

(** What [positiveInteger] lets through: exactly the numbers that are
    whole and not below zero, unchanged; both zeros are among them, NaN
    and the infinities are not. *)
Theorem positiveInteger_returns_iff (v r : JsValue) :
  positiveInteger v = Return r
  ↔ ∃ n, v = JNumber n ∧ r = v
      ∧ Number_isInteger n = true ∧ (0 <=? n)%float = true.
Proof.
  unfold positiveInteger, numberAdv, number, primitive. split.
  - destruct v as [| |b|n|z|s|f|items|fields]; simpl; try rejected.
    rewrite Math_sign_minus_one.
    destruct (n <? 0)%float eqn:Hneg; simpl; [rejected|].
    destruct (Number_isInteger n) eqn:Hwhole; simpl; [|rejected].
    intros [= <-]. exists n. by apply whole_not_negative in Hneg.
  - intros (n & -> & -> & Hwhole & Hpos). simpl.
    rewrite Math_sign_minus_one.
    apply (whole_not_negative n Hwhole) in Hpos. by rewrite Hpos, Hwhole.
Qed.

Lemma NaN_compares_false (f : float) :
  (nan <? f)%float = false ∧ (f <? nan)%float = false.
Proof.
  rewrite !FloatAxioms.ltb_spec. change (Prim2SF nan) with S754_nan.
  split; [done|]. by destruct (Prim2SF f).
Qed.

(** NaN passes every range and the sign check 'positive': [numberAdv]
    lets NaN through unless [integer] is set or the sign asked for is
    'negative'. *)
Theorem numberAdv_lets_NaN_through (props : NumberValidationProps) :
  numberAdv props (JNumber nan) = Return (JNumber nan)
  ↔ integer props ≠ Some true ∧ sign props ≠ Some "negative".
Proof.
  destruct props as [sg whole rg]. unfold numberAdv, number, primitive. simpl.
  change (Math_sign nan =? -1)%float with false. split.
  - intros Hr. split; intros ->; revert Hr.
    + destruct sg as [which|]; simpl;
        [destruct (String.eqb which "positive"), (String.eqb which "negative"); simpl|];
        rejected.
    + simpl. rejected.
  - intros [Hwhole Hsg].
    destruct sg as [which|]; simpl;
      [destruct (String.eqb which "positive");
       [|destruct (String.eqb_spec which "negative") as [->|]; [done|]]|];
      simpl.
    all: destruct whole as [[]|]; try done; simpl.
    all: destruct rg as [[from to]|]; try done; simpl.
    all: destruct (NaN_compares_false from) as [-> _].
    all: by destruct (NaN_compares_false to) as [_ ->].
Qed.
End ValidatorProperties.

Section ValidatorExamples.
Import Validate.
#[local] Existing Instance Validate.sample.

(** [null] where a string is asked for. *)
Lemma missing_value_throws_TypeError_witness :
  primitive "string" JNull = Throw TypeError
  ∧ date JNull = Throw TypeError
  ∧ array string JNull = Throw TypeError
  ∧ stringEnumeration ["circular"; "spiral"] JNull = Throw TypeError
  ∧ numberAdv (mkProps None None None) JNull = Throw TypeError
  ∧ objectId JNull = Throw TypeError
  ∧ (strict_equal JNull (JString "circular") = false
     → just (JString "circular") JNull = Throw TypeError)
  ∧ withDefault (JString "circular") string JNull = Return (JString "circular").
Proof.
  apply (missing_value_throws_TypeError JNull (JString "circular") "string" string
           (JString "circular") ["circular"; "spiral"] (mkProps None None None)).
  by left.
Defined.

(** A boolean where a number is asked for. *)
Lemma failed_omits_short_values_witness :
  failed "number" (JBoolean true)
  = Return (ValidationError "Expected number, but got:  boolean").
Proof.
  apply (failed_omits_short_values "number" "true" (JBoolean true)).
  - reflexivity.
  - simpl. lia.
Defined.

(** An array of two strings and a boolean, asked to hold strings. *)
Lemma array_stops_at_first_failure_witness :
  array string (JArray [JString "a"; JString "b"; JBoolean true; JString "c"])
  = Throw (ValidationError "Expected string, but got:  boolean").
Proof.
  apply (array_stops_at_first_failure string [JString "a"; JString "b"]
           [JString "c"] (JBoolean true)).
  - repeat constructor; by eexists.
  - reflexivity.
Defined.

(** A request body with a name and nothing else. *)
Lemma object_returns_iff_witness :
  object [("name", string)] (JObject [("name", JString "Orion")])
  = Return [("name", JString "Orion")].
Proof.
  apply (object_returns_iff [("name", string)] (JObject [("name", JString "Orion")])).
  - reflexivity.
  - discriminate.
  - repeat constructor.
Defined.

(** The same body, read by a validator with the fields [name] and
    [players]. *)
Lemma object_names_first_bad_field_witness :
  object [("name", string); ("players", number)] (JObject [("name", JString "Orion")])
  = Throw (ValidationError
             "Error in field players: Cannot read properties of undefined").
Proof.
  refine (object_names_first_bad_field [("name", string)] [] "players" number
            (JObject [("name", JString "Orion")]) TypeError _ _ _ _).
  - reflexivity.
  - discriminate.
  - repeat constructor. by eexists.
  - reflexivity.
Defined.

(** A record of two numbers. *)
Lemma record_returns_iff_witness :
  record number (JObject [("x", JNumber 1); ("y", JNumber 2)])
  = Return [("x", JNumber 1); ("y", JNumber 2)].
Proof.
  apply (record_returns_iff number (JObject [("x", JNumber 1); ("y", JNumber 2)])).
  - reflexivity.
  - discriminate.
  - repeat constructor.
Defined.
End ValidatorExamples.
